(** * The resilient call executor of kiara-note (utils/errorHandler.js)

    A shallow embedding of the [ErrorHandler] class: error tracking, rate-limit
    windows, backoff delays, the retry loop with its circuit-breaker and
    rate-limit checks, error classification, statistics and maintenance.

    Conventions of the embedding:
    - a JS [Map] is an association list in insertion order (a JS [Map]
      iterates in insertion order and [set] on an existing key keeps its place);
      an object built with [{}] is the list of the properties it owns, in the
      order they were added, and names it does not own are read from
      [Object.prototype];
    - JS numbers used as timestamps, counters, thresholds and HTTP statuses are
      integers ([Z]); [maxRetries] and the attempt index are natural numbers;
      the backoff delay, which multiplies by [0.1] and adds a random jitter, is
      an exact rational ([Q]);
    - an absent property, argument or option is [None];
    - [Date.now()], [Math.random()] and the caller's asynchronous operation are
      read from an explicit [World] record, one field per reading site; a
      delay between two attempts always elapses;
    - every method takes the handler state and returns the new one. *)

From Stdlib Require Import ZArith QArith Qminmax String Ascii DecimalString List Bool Lia
  Permutation.
Import ListNotations.
Open Scope string_scope.
Open Scope Z_scope.

(** ** Strings *)

Module Str.

(** [s.includes(needle)] *)
Fixpoint includes (s needle : string) : bool :=
  String.prefix needle s
  || match s with
     | EmptyString => false
     | String _ s' => includes s' needle
     end.

(** [s.startsWith(p)] *)
Definition startsWith (s p : string) : bool := String.prefix p s.

(** [s.split(sep)] for a one-character separator: always at least one
    segment, and one more per occurrence of [sep]. *)
Fixpoint split (sep : ascii) (s : string) : list string :=
  match s with
  | EmptyString => [EmptyString]
  | String c s' =>
      if Ascii.eqb c sep then EmptyString :: split sep s'
      else match split sep s' with
           | [] => [String c EmptyString]
           | seg :: segs => String c seg :: segs
           end
  end.

(** does the character occur in the string *)
Fixpoint mem (c : ascii) (s : string) : bool :=
  match s with
  | EmptyString => false
  | String c' s' => Ascii.eqb c' c || mem c s'
  end.

End Str.

(** ** JS [Map] with string keys *)

Module Map.

Definition t (V : Type) : Type := list (string * V).

Section Ops.
Context {V : Type}.

Definition empty : t V := [].

Fixpoint get (k : string) (m : t V) : option V :=
  match m with
  | [] => None
  | (k', v) :: m' => if String.eqb k k' then Some v else get k m'
  end.

Definition has (k : string) (m : t V) : bool :=
  match get k m with Some _ => true | None => false end.

(** [set] overwrites in place, or appends a new entry *)
Fixpoint set (k : string) (v : V) (m : t V) : t V :=
  match m with
  | [] => [(k, v)]
  | (k', v') :: m' =>
      if String.eqb k k' then (k, v) :: m' else (k', v') :: set k v m'
  end.

Definition delete (k : string) (m : t V) : t V :=
  filter (fun kv => negb (String.eqb k (fst kv))) m.

Definition keys (m : t V) : list string := map fst m.

Definition clear (_ : t V) : t V := [].
End Ops.

End Map.

(** ** Data model *)

(** An error object as the handler reads it: the error thrown by an operation
    carries [message] and [status]; the record handed to [trackError] also
    carries [type].  An absent property is [None]. *)
Record JsError : Type := mkError {
  type : option string;
  message : option string;
  status : option Z
}.

(** [{ count, firstError, lastError }], one per key of [errorCounts] *)
Module Tracking.
Record t : Type := mk { count : Z; firstError : Z; lastError : Z }.
End Tracking.

(** [{ count, resetTime, windowMs, maxRequests }], one per key of [rateLimits] *)
Module Limit.
Record t : Type := mk { count : Z; resetTime : Z; windowMs : Z; maxRequests : Z }.
End Limit.

(** [{ error, timestamp, count }], one per key of [lastErrors] *)
Module LastError.
Record t : Type := mk { error : JsError; timestamp : Z; count : Z }.
End LastError.

(** The fields of the singleton ([retryStrategies] is created by the
    constructor and never read or written afterwards). *)
Record ErrorHandler : Type := mkHandler {
  errorCounts : Map.t Tracking.t;
  rateLimits : Map.t Limit.t;
  lastErrors : Map.t LastError.t
}.

(** [new ErrorHandler()] *)
Definition newErrorHandler : ErrorHandler :=
  {| errorCounts := Map.empty; rateLimits := Map.empty; lastErrors := Map.empty |}.

(** ** Error classification *)

(** [error.message?.includes(needle)]: falsy when there is no message *)
Definition messageIncludes (error : JsError) (needle : string) : bool :=
  match message error with
  | Some m => Str.includes m needle
  | None => false
  end.

(** [error.status === n] *)
Definition statusIs (error : JsError) (n : Z) : bool :=
  match status error with
  | Some s => s =? n
  | None => false
  end.

(** [error.status >= n] *)
Definition statusGe (error : JsError) (n : Z) : bool :=
  match status error with
  | Some s => n <=? s
  | None => false
  end.

Definition getErrorType (error : JsError) : string :=
  if messageIncludes error "rate limit" then "rate_limit"
  else if messageIncludes error "network" then "network"
  else if messageIncludes error "authentication" then "auth"
  else if messageIncludes error "permission" then "permission"
  else if statusIs error 401 then "auth"
  else if statusIs error 403 then "permission"
  else if statusIs error 404 then "not_found"
  else if statusIs error 429 then "rate_limit"
  else if statusGe error 500 then "server"
  else "general".

(** [array.includes(x)] on an array of strings *)
Definition arrayIncludes (xs : list string) (x : string) : bool :=
  existsb (String.eqb x) xs.

Definition noRetryErrors : list string :=
  ["authentication"; "permission"; "not_found"].

Definition shouldNotRetry (error : JsError) : bool :=
  let errorType := getErrorType error in
  arrayIncludes noRetryErrors errorType.

Definition messages : Map.t string :=
  [ ("rate_limit", "GitHub API rate limit exceeded. Please wait a few minutes before trying again.");
    ("network", "Network connection failed. Please check your internet connection.");
    ("auth", "Authentication failed. Please log in again.");
    ("permission", "Permission denied. You don't have access to this resource.");
    ("not_found", "Resource not found. Please check the repository or file path.");
    ("server", "GitHub server error. Please try again later.");
    ("general", "An unexpected error occurred. Please try again.") ].

Definition getUserFriendlyMessage (error : JsError) : string :=
  let errorType := getErrorType error in
  match Map.get errorType messages with
  | Some m => m
  | None => "An unexpected error occurred. Please try again."
  end.

(** ** Error tracking *)

(** [`${operation}_${error.type || 'general'}`] *)
Definition trackingKey (operation : string) (error : JsError) : string :=
  operation ++ "_" ++ match type error with
                      | Some "" | None => "general"
                      | Some t => t
                      end.

(** [trackError(operation, error)], with [now = Date.now()].  The entry is
    created with count 0 when the key is new, then incremented and stamped;
    the updated entry is returned together with the new state. *)
Definition trackError (h : ErrorHandler) (operation : string) (error : JsError)
    (now : Z) : Tracking.t * ErrorHandler :=
  let key := trackingKey operation error in
  let tracking :=
    match Map.get key (errorCounts h) with
    | Some tracking => tracking
    | None => Tracking.mk 0 now now
    end in
  let tracking :=
    Tracking.mk (Tracking.count tracking + 1) (Tracking.firstError tracking) now in
  (tracking,
   {| errorCounts := Map.set key tracking (errorCounts h);
      rateLimits := rateLimits h;
      lastErrors :=
        Map.set key (LastError.mk error now (Tracking.count tracking)) (lastErrors h) |}).

(** ** Rate-limit windows *)

(** [isRateLimited(operation)], with [now = Date.now()] *)
Definition isRateLimited (h : ErrorHandler) (operation : string) (now : Z) : bool :=
  let key := operation in
  match Map.get key (rateLimits h) with
  | None => false
  | Some limit => now <? Limit.resetTime limit
  end.

Definition withRateLimits (h : ErrorHandler) (rl : Map.t Limit.t) : ErrorHandler :=
  {| errorCounts := errorCounts h; rateLimits := rl; lastErrors := lastErrors h |}.

Definition withErrorCounts (h : ErrorHandler) (ec : Map.t Tracking.t) : ErrorHandler :=
  {| errorCounts := ec; rateLimits := rateLimits h; lastErrors := lastErrors h |}.

(** an omitted argument or option takes its default *)
Definition orDefault {A : Type} (d : A) (o : option A) : A :=
  match o with Some a => a | None => d end.

(** [applyRateLimit(operation, windowMs = 60000, maxRequests = 10)], with
    [now = Date.now()]; returns whether the call is limited. *)
Definition applyRateLimit (h : ErrorHandler) (operation : string)
    (windowMs maxRequests : option Z) (now : Z) : bool * ErrorHandler :=
  let windowMs := orDefault 60000 windowMs in
  let maxRequests := orDefault 10 maxRequests in
  let key := operation in
  match Map.get key (rateLimits h) with
  | None =>
      (false,
       withRateLimits h
         (Map.set key (Limit.mk 1 (now + windowMs) windowMs maxRequests) (rateLimits h)))
  | Some limit =>
      if Limit.resetTime limit <=? now then
        (* reset window if expired *)
        (false,
         withRateLimits h
           (Map.set key
              (Limit.mk 1 (now + windowMs) (Limit.windowMs limit) (Limit.maxRequests limit))
              (rateLimits h)))
      else if Limit.maxRequests limit <=? Limit.count limit then
        (true, h)
      else
        (false,
         withRateLimits h
           (Map.set key
              (Limit.mk (Limit.count limit + 1) (Limit.resetTime limit)
                 (Limit.windowMs limit) (Limit.maxRequests limit))
              (rateLimits h)))
  end.

(** ** Backoff delay *)

(** [Math.min(errorCount, 5)] then [1 + errorMultiplier * 0.1] *)
Definition errorFactor (errorCount : Z) : Q :=
  let errorMultiplier := Z.min errorCount 5 in
  (1 + inject_Z errorMultiplier * (1 # 10))%Q.

(** [getRetryDelay(operation, attempt, maxDelay = 30000)], with
    [random = Math.random()].  The base delay is the local constant 1000. *)
Definition getRetryDelay (h : ErrorHandler) (operation : string) (attempt : nat)
    (maxDelay : option Z) (random : Q) : Q :=
  let maxDelay := orDefault 30000 maxDelay in
  let key := operation in
  let baseDelay := 1000 in
  let tracking := Map.get key (errorCounts h) in
  let errorCount :=
    match tracking with Some tracking => Tracking.count tracking | None => 0 end in
  let delay :=
    Qmin (inject_Z (baseDelay * 2 ^ Z.of_nat attempt) + random * 1000)%Q
         (inject_Z maxDelay) in
  (delay * errorFactor errorCount)%Q.

(** ** The retry loop *)

(** The options object of [retryOperation]; an omitted field is [None]. *)
Record Options : Type := mkOptions {
  maxRetries : option nat;
  baseDelay : option Z;
  maxDelay : option Z;
  circuitBreakerThreshold : option Z;
  circuitBreakerTimeout : option Z;
  operationName : option string
}.

(** [{}] *)
Definition noOptions : Options :=
  mkOptions None None None None None None.

(** What [retryOperation] throws: its own two errors, or [lastError] (the
    error caught from the operation; [None] is [undefined]). *)
Inductive Raised : Type :=
| CircuitOpen (operationName : string)
| RateLimited (operationName : string) (resetTime : Z)
| Thrown (lastError : option JsError).

(** Everything one call reads from outside the handler. *)
Record World (R : Type) : Type := mkWorld {
  operation : nat -> JsError + R;  (* how the i-th [await operation()] settles *)
  nowCircuit : Z;                  (* [Date.now()] of the circuit-breaker check *)
  nowRateLimit : Z;                (* [Date.now()] inside [isRateLimited] *)
  nowTrack : nat -> Z;             (* [Date.now()] inside [trackError], attempt i *)
  random : nat -> Q                (* [Math.random()] inside [getRetryDelay], attempt i *)
}.
Arguments operation {R}.
Arguments nowCircuit {R}.
Arguments nowRateLimit {R}.
Arguments nowTrack {R}.
Arguments random {R}.

(** One settled call: the value returned or the error thrown, how many times
    the operation was invoked, the delays waited between attempts, and the
    handler state left behind. *)
Record Run (R : Type) : Type := mkRun {
  outcome : Raised + R;
  invocations : nat;
  delays : list Q;
  handler : ErrorHandler
}.
Arguments mkRun {R}.
Arguments outcome {R}.
Arguments invocations {R}.
Arguments delays {R}.
Arguments handler {R}.

(** The circuit-breaker block at the head of [retryOperation]: throws, or
    leaves the state (less the entry under [key] once the timeout is over). *)
Definition circuitBreaker (h : ErrorHandler) (key : string)
    (circuitBreakerThreshold circuitBreakerTimeout now : Z) : Raised + ErrorHandler :=
  let tracking := Map.get key (errorCounts h) in
  match tracking with
  | Some tracking =>
      if circuitBreakerThreshold <=? Tracking.count tracking then
        let timeSinceLastError := now - Tracking.lastError tracking in
        if timeSinceLastError <? circuitBreakerTimeout then inl (CircuitOpen key)
        else inr (withErrorCounts h (Map.delete key (errorCounts h)))
      else inr h
  | None => inr h
  end.

(** The rate-limit block that follows it. *)
Definition rateLimitCheck (h : ErrorHandler) (key : string) (now : Z) : option Raised :=
  if isRateLimited h key now then
    match Map.get key (rateLimits h) with
    | Some limit => Some (RateLimited key (Limit.resetTime limit))
    | None => None
    end
  else None.

Section RetryLoop.
Context {R : Type} (w : World R).
Variables (key : string) (maxRetries : nat) (maxDelay : Z).

(** [for (let attempt = 0; attempt <= maxRetries; attempt++)], entered at
    [attempt] with [remaining] iterations before the loop condition fails;
    when it fails the code falls through to [throw lastError]. *)
Fixpoint attempts (remaining attempt : nat) (lastError : option JsError)
    (h : ErrorHandler) (slept : list Q) : Run R :=
  match remaining with
  | O => mkRun (inl (Thrown lastError)) attempt slept h
  | S remaining' =>
      match operation w attempt with
      | inr result =>
          (* success: reset error tracking *)
          mkRun (inr result) (S attempt) slept
            (withErrorCounts h (Map.delete key (errorCounts h)))
      | inl error =>
          let lastError := Some error in
          let h :=
            snd (trackError h key
                   (mkError (Some (getErrorType error)) (message error) (status error))
                   (nowTrack w attempt)) in
          if shouldNotRetry error then
            mkRun (inl (Thrown (Some error))) (S attempt) slept h
          else if (attempt =? maxRetries)%nat then
            (* break, then throw lastError *)
            mkRun (inl (Thrown lastError)) (S attempt) slept h
          else
            let delay := getRetryDelay h key attempt (Some maxDelay) (random w attempt) in
            attempts remaining' (S attempt) lastError h (slept ++ [delay])
      end
  end.
End RetryLoop.

(** [retryOperation(operation, options = {})] *)
Definition retryOperation {R : Type} (h : ErrorHandler) (w : World R)
    (options : Options) : Run R :=
  let maxRetries := orDefault 3%nat (maxRetries options) in
  let baseDelay := orDefault 1000 (baseDelay options) in
  let maxDelay := orDefault 30000 (maxDelay options) in
  let circuitBreakerThreshold := orDefault 5 (circuitBreakerThreshold options) in
  let circuitBreakerTimeout := orDefault 60000 (circuitBreakerTimeout options) in
  let operationName := orDefault "unknown" (operationName options) in
  let key := operationName in
  match circuitBreaker h key circuitBreakerThreshold circuitBreakerTimeout (nowCircuit w) with
  | inl raised => mkRun (inl raised) 0 [] h
  | inr h =>
      match rateLimitCheck h key (nowRateLimit w) with
      | Some raised => mkRun (inl raised) 0 [] h
      | None => attempts w key maxRetries maxDelay (S maxRetries) 0 None h []
      end
  end.

(** [withErrorHandling] is [retryOperation] on the singleton. *)
Definition withErrorHandling {R : Type} := @retryOperation R.

(** ** Statistics and maintenance *)

Module RecentError.
(** one element of [stats.recentErrors] *)
Record t : Type := mk {
  operation : string;
  type : option string;
  message : option string;
  timestamp : Z;
  count : Z
}.
End RecentError.

(** *** Plain objects

    [getErrorStats] and [getRateLimitStatus] build objects with [{}] and use
    them as maps from names to values.  Such an object inherits the members
    of [Object.prototype]: reading a name the object does not own finds them.
    An object is modelled by the properties it owns, in the order they were
    added (JS enumerates names that are array indices first; nothing below
    depends on the order); what a read of another name finds is given by
    [Obj.inherited]. *)
Module Obj.

(** the methods of [Object.prototype] other than [constructor] *)
Definition methods : list string :=
  ["__defineGetter__"; "__defineSetter__"; "hasOwnProperty"; "__lookupGetter__";
   "__lookupSetter__"; "isPrototypeOf"; "propertyIsEnumerable"; "toString";
   "valueOf"; "toLocaleString"].

(** [String(Object.prototype[k])] when [Object.prototype] has a member [k],
    [None] when it has none.  [__proto__] reads as the prototype itself and
    [constructor] as the function [Object]; a built-in function prints as V8
    prints it. *)
Definition inherited (k : string) : option string :=
  if String.eqb k "__proto__" then Some "[object Object]"
  else if String.eqb k "constructor" then Some "function Object() { [native code] }"
  else if existsb (String.eqb k) methods
       then Some ("function " ++ k ++ "() { [native code] }")
       else None.

End Obj.

(** a value of [errorsByType] or [errorsByOperation]: a number, or the string
    that [+] makes of an inherited member and a count *)
Inductive Value : Type :=
| Number (n : Z)
| Text (s : string).

(** [String(n)] for an integer [n] *)
Definition decimal (n : Z) : string := NilZero.string_of_int (Z.to_int n).

Record Stats : Type := mkStats {
  totalErrors : Z;
  errorsByType : Map.t Value;
  errorsByOperation : Map.t Value;
  recentErrors : list RecentError.t
}.

(** the property name an array element is used as: [undefined] when missing *)
Definition propertyName (o : option string) : string :=
  match o with Some s => s | None => "undefined" end.

(** [obj[k] = (obj[k] || 0) + n] on an object created by [{}].  A property
    the object owns is read back: a number is added to, a non-empty string
    appended to.  A name it does not own is read from [Object.prototype]: a
    member found there is truthy and [+] concatenates its string with the
    count, and the result becomes a property of the object, except under
    [__proto__], where assigning a string does nothing. *)
Definition addTo (obj : Map.t Value) (k : string) (n : Z) : Map.t Value :=
  match Map.get k obj with
  | Some (Number m) => Map.set k (Number (m + n)) obj
  | Some (Text s) =>
      Map.set k (if String.eqb s "" then Number n else Text (s ++ decimal n)) obj
  | None =>
      match Obj.inherited k with
      | Some member =>
          if String.eqb k "__proto__" then obj
          else Map.set k (Text (member ++ decimal n)) obj
      | None => Map.set k (Number n) obj
      end
  end.

(** [key.split('_')[0]] and [key.split('_')[1]] *)
Definition keyOperation (key : string) : string :=
  nth 0 (Str.split "_" key) "".

Definition keyType (key : string) : option string :=
  nth_error (Str.split "_" key) 1.

(** body of the first loop of [getErrorStats] *)
Definition countEntry (stats : Stats) (entry : string * Tracking.t) : Stats :=
  let '(key, tracking) := entry in
  let operation := keyOperation key in
  let type := propertyName (keyType key) in
  {| totalErrors := totalErrors stats + Tracking.count tracking;
     errorsByType := addTo (errorsByType stats) type (Tracking.count tracking);
     errorsByOperation :=
       addTo (errorsByOperation stats) operation (Tracking.count tracking);
     recentErrors := recentErrors stats |}.

(** body of the second loop *)
Definition recentEntry (oneHourAgo : Z) (stats : Stats)
    (entry : string * LastError.t) : Stats :=
  let '(key, errorInfo) := entry in
  if oneHourAgo <? LastError.timestamp errorInfo then
    {| totalErrors := totalErrors stats;
       errorsByType := errorsByType stats;
       errorsByOperation := errorsByOperation stats;
       recentErrors :=
         recentErrors stats ++
           [RecentError.mk (keyOperation key) (keyType key)
              (message (LastError.error errorInfo))
              (LastError.timestamp errorInfo) (LastError.count errorInfo)] |}
  else stats.

(** [getErrorStats()], with [now = Date.now()] *)
Definition getErrorStats (h : ErrorHandler) (now : Z) : Stats :=
  let stats := mkStats 0 Map.empty Map.empty [] in
  let stats := fold_left countEntry (errorCounts h) stats in
  let oneHourAgo := now - 3600000 in
  fold_left (recentEntry oneHourAgo) (lastErrors h) stats.

(** body of the loop of [clearErrors] *)
Definition clearKey (operation : string) (h : ErrorHandler) (key : string) : ErrorHandler :=
  if Str.startsWith key operation then
    {| errorCounts := Map.delete key (errorCounts h);
       rateLimits := rateLimits h;
       lastErrors := Map.delete key (lastErrors h) |}
  else h.

(** [clearErrors(operation = null)].  The test [if (operation)] fails for
    [null] and for the empty string.  The loop runs over the keys of
    [errorCounts]; deleting the key just visited does not disturb the
    iteration, so it visits every key the map had on entry. *)
Definition clearErrors (h : ErrorHandler) (operation : option string) : ErrorHandler :=
  match operation with
  | Some "" | None =>
      {| errorCounts := Map.clear (errorCounts h);
         rateLimits := rateLimits h;
         lastErrors := Map.clear (lastErrors h) |}
  | Some operation =>
      fold_left (clearKey operation) (Map.keys (errorCounts h)) h
  end.

Module LimitStatus.
(** one value of the object returned by [getRateLimitStatus] *)
Record t : Type := mk {
  count : Z;
  maxRequests : Z;
  resetTime : Z;
  timeUntilReset : Z;
  isLimited : bool
}.
End LimitStatus.

(** the object returned by [getRateLimitStatus]: the properties it owns and,
    once the loop has assigned to [__proto__], the status object that became
    its prototype (itself an object literal, so [Object.prototype] follows
    it in the chain) *)
Module StatusObject.

Record t : Type := mk {
  own : Map.t LimitStatus.t;
  proto : option LimitStatus.t
}.

(** [{}] *)
Definition empty : t := mk Map.empty None.

(** [status[k] = value] for an object [value]: under [__proto__] it replaces
    the prototype and adds no property *)
Definition assign (status : t) (k : string) (value : LimitStatus.t) : t :=
  if String.eqb k "__proto__" then mk (own status) (Some value)
  else mk (Map.set k value (own status)) (proto status).

(** what [status[k]] evaluates to *)
Inductive Property : Type :=
| Entry (status : LimitStatus.t)  (* a status object made by the loop *)
| NumberField (n : Z)             (* a numeric field of the prototype *)
| BooleanField (b : bool)         (* its [isLimited] field *)
| Member (k : string)             (* the member [k] of [Object.prototype] *)
| Undefined.

(** a field of a status object, by name *)
Definition field (status : LimitStatus.t) (k : string) : option Property :=
  if String.eqb k "count" then Some (NumberField (LimitStatus.count status))
  else if String.eqb k "maxRequests" then Some (NumberField (LimitStatus.maxRequests status))
  else if String.eqb k "resetTime" then Some (NumberField (LimitStatus.resetTime status))
  else if String.eqb k "timeUntilReset"
       then Some (NumberField (LimitStatus.timeUntilReset status))
  else if String.eqb k "isLimited" then Some (BooleanField (LimitStatus.isLimited status))
  else None.

(** [Object.prototype[k]] *)
Definition member (k : string) : Property :=
  match Obj.inherited k with
  | Some _ => Member k
  | None => Undefined
  end.

(** [status[k]]: a property the object owns, else the prototype itself for
    [__proto__], else what the prototype chain holds under [k] *)
Definition read (status : t) (k : string) : Property :=
  match Map.get k (own status) with
  | Some value => Entry value
  | None =>
      match proto status with
      | Some prototype =>
          if String.eqb k "__proto__" then Entry prototype
          else match field prototype k with
               | Some value => value
               | None => member k
               end
      | None => member k
      end
  end.

End StatusObject.

Definition limitStatus (now : Z) (limit : Limit.t) : LimitStatus.t :=
  {| LimitStatus.count := Limit.count limit;
     LimitStatus.maxRequests := Limit.maxRequests limit;
     LimitStatus.resetTime := Limit.resetTime limit;
     LimitStatus.timeUntilReset := Z.max 0 (Limit.resetTime limit - now);
     LimitStatus.isLimited :=
       (now <? Limit.resetTime limit)
       && (Limit.maxRequests limit <=? Limit.count limit) |}.

(** [getRateLimitStatus()], with [now = Date.now()]: one assignment
    [status[operation] = {...}] per entry of [rateLimits], in iteration
    order. *)
Definition getRateLimitStatus (h : ErrorHandler) (now : Z) : StatusObject.t :=
  fold_left
    (fun status entry =>
       StatusObject.assign status (fst entry) (limitStatus now (snd entry)))
    (rateLimits h) StatusObject.empty.

(** ** Specification-side definitions and scenarios *)

(** The precedence table as the specification lists it (section 4.1): the
    first rule that applies decides, and [general] is the fallback. *)
Definition specRules : list ((JsError -> bool) * string) :=
  [ (fun e => messageIncludes e "rate limit", "rate_limit");
    (fun e => messageIncludes e "network", "network");
    (fun e => messageIncludes e "authentication", "auth");
    (fun e => messageIncludes e "permission", "permission");
    (fun e => statusIs e 401, "auth");
    (fun e => statusIs e 403, "permission");
    (fun e => statusIs e 404, "not_found");
    (fun e => statusIs e 429, "rate_limit");
    (fun e => statusGe e 500, "server") ].

Fixpoint firstMatch (rules : list ((JsError -> bool) * string)) (fallback : string)
    (e : JsError) : string :=
  match rules with
  | [] => fallback
  | (applies, class) :: rules => if applies e then class else firstMatch rules fallback e
  end.

(** does one of the four message checks apply *)
Definition messageDecides (e : JsError) : bool :=
  messageIncludes e "rate limit" || messageIncludes e "network"
  || messageIncludes e "authentication" || messageIncludes e "permission".

Definition classes : list string :=
  ["rate_limit"; "network"; "auth"; "permission"; "not_found"; "server"; "general"].

(** the error Octokit raises for a rejected token *)
Definition badCredentials : JsError :=
  mkError None (Some "Bad credentials") (Some 401).

(** is the call refused by the circuit-breaker block *)
Definition circuitOpen (h : ErrorHandler) (options : Options) (now : Z) : bool :=
  match circuitBreaker h (orDefault "unknown" (operationName options))
          (orDefault 5 (circuitBreakerThreshold options))
          (orDefault 60000 (circuitBreakerTimeout options)) now with
  | inl _ => true
  | inr _ => false
  end.

(** the classes the specification calls non-retryable *)
Definition specNoRetry : list string := ["auth"; "permission"; "not_found"].

(** a world in which every invocation fails with the same error *)
Definition alwaysFailing (error : JsError) (now : Z) : World string :=
  {| operation := fun _ => inl error;
     nowCircuit := now;
     nowRateLimit := now;
     nowTrack := fun i => now + Z.of_nat i;
     random := fun _ => (1 # 2)%Q |}.

Definition serverDown : JsError := mkError None (Some "Bad gateway") (Some 502).

(** with [maxRetries: 3], as every caller in the repository sets it *)
Definition threeRetries (name : string) : Options :=
  {| maxRetries := Some 3%nat; baseDelay := None; maxDelay := None;
     circuitBreakerThreshold := Some 5; circuitBreakerTimeout := None;
     operationName := Some name |}.

Definition networkDown : JsError := mkError None (Some "network request failed") None.

(** the end-to-end scenario of the specification: two [network] failures,
    then success *)
Definition failsTwice (now : Z) : World string :=
  {| operation := fun i => if (i <? 2)%nat then inl networkDown else inr "saved";
     nowCircuit := now;
     nowRateLimit := now;
     nowTrack := fun i => now + 1 + Z.of_nat i;
     random := fun _ => 0%Q |}.

(** five failures of [sync], classified [network], recorded at time 0 *)
Definition fiveNetworkFailures : ErrorHandler :=
  fold_left
    (fun h _ => snd (trackError h "sync" (mkError (Some "network") None None) 0))
    (seq 0 5) newErrorHandler.

(** a caller whose operation name is the key those failures were stored under *)
Definition syncNetwork : Options :=
  {| maxRetries := Some 3%nat; baseDelay := None; maxDelay := None;
     circuitBreakerThreshold := Some 5; circuitBreakerTimeout := Some 60000;
     operationName := Some "sync_network" |}.

(** A JS [Map] holds each key once.  The list model keeps that as an
    invariant: every method preserves it. *)
Definition uniqueKeys {V : Type} (m : Map.t V) : Prop := NoDup (Map.keys m).

(** one request counted in a window of ten, half a minute before its reset *)
Definition oneRequestCounted : ErrorHandler :=
  snd (applyRateLimit newErrorHandler "fetchRepositories" None None 1000).

(** The delay formula as the specification states it (section 4.1), with the
    configured base and cap: [min(base * 2^attempt + jitter, cap)], scaled by
    [1 + min(errorCount, 5) * 0.1]. *)
Definition specDelay (baseDelayMs maxDelayMs : Z) (attempt : nat) (errorCount : Z)
    (jitter : Q) : Q :=
  (Qmin (inject_Z (baseDelayMs * 2 ^ Z.of_nat attempt) + jitter) (inject_Z maxDelayMs)
   * (1 + inject_Z (Z.min errorCount 5) * (1 # 10)))%Q.

(** the count [getRetryDelay] reads: the entry under the plain operation name *)
Definition errorCountFor (h : ErrorHandler) (operation : string) : Z :=
  match Map.get operation (errorCounts h) with
  | Some tracking => Tracking.count tracking
  | None => 0
  end.

(** a caller that configures a base delay of 100 ms and one retry *)
Definition shortBaseDelay : Options :=
  {| maxRetries := Some 1%nat; baseDelay := Some 100; maxDelay := Some 30000;
     circuitBreakerThreshold := None; circuitBreakerTimeout := None;
     operationName := Some "createNote" |}.

(** is [key] one of the keys the loop of [clearErrors] deletes, on a run over [ks] *)
Definition clearedIn (operation : string) (ks : list string) (key : string) : bool :=
  existsb (fun k => Str.startsWith k operation && String.eqb k key) ks.

(** A failure of [sync] recorded under [sync_general], then a successful call
    by a caller named [sync_general]: its deletion on success removes that key
    from [errorCounts] and leaves it in [lastErrors]. *)
Definition afterNamesakeSuccess : ErrorHandler :=
  let h := snd (trackError newErrorHandler "sync" (mkError None (Some "boom") None) 10) in
  let w := {| operation := fun _ => inr "done"; nowCircuit := 20; nowRateLimit := 20;
              nowTrack := fun _ => 20; random := fun _ => 0%Q |} in
  handler (retryOperation h w (threeRetries "sync_general")).

(** the counts stored under keys that [proj] sends to [k], summed; [proj] is
    how a tracking key is turned into a property name of the grouped counts *)
Fixpoint total (proj : string -> string) (k : string) (m : Map.t Tracking.t) : Z :=
  match m with
  | [] => 0
  | (key, tracking) :: m' =>
      (if String.eqb (proj key) k then Tracking.count tracking else 0) + total proj k m'
  end.

Definition anyKey (proj : string -> string) (k : string) (m : Map.t Tracking.t) : bool :=
  existsb (fun entry => String.eqb (proj (fst entry)) k) m.

Definition grouped (proj : string -> string) (m : Map.t Tracking.t) (obj : Map.t Value) :
    Map.t Value :=
  fold_left (fun obj entry => addTo obj (proj (fst entry)) (Tracking.count (snd entry)))
    m obj.

(** one attempt, no retry *)
Definition noRetry (name : string) : Options :=
  {| maxRetries := Some 0%nat; baseDelay := None; maxDelay := None;
     circuitBreakerThreshold := None; circuitBreakerTimeout := None;
     operationName := Some name |}.

(** The states the singleton can be in: the fresh handler, and whatever a
    method leaves behind when called on such a state. *)
Inductive Reachable : ErrorHandler -> Prop :=
| reach_new : Reachable newErrorHandler
| reach_trackError h operation error now :
    Reachable h -> Reachable (snd (trackError h operation error now))
| reach_applyRateLimit h operation windowMs maxRequests now :
    Reachable h -> Reachable (snd (applyRateLimit h operation windowMs maxRequests now))
| reach_retryOperation h (R : Type) (w : World R) options :
    Reachable h -> Reachable (handler (retryOperation h w options))
| reach_clearErrors h operation :
    Reachable h -> Reachable (clearErrors h operation).

(** every key of [errorCounts] was built by [trackError]: it holds an underscore *)
Definition compositeKeys (h : ErrorHandler) : Prop :=
  Forall (fun key => Str.mem "_" key = true) (Map.keys (errorCounts h)).

Definition wellFormed (h : ErrorHandler) : Prop :=
  uniqueKeys (errorCounts h) /\ uniqueKeys (rateLimits h) /\ uniqueKeys (lastErrors h)
  /\ compositeKeys h.

(** all counts of [errorCounts], summed *)
Definition sumCounts (m : Map.t Tracking.t) : Z :=
  fold_right (fun entry n => Tracking.count (snd entry) + n) 0 m.

(** the element of [recentErrors] made from an entry of [lastErrors] *)
Definition toRecent (entry : string * LastError.t) : RecentError.t :=
  RecentError.mk (keyOperation (fst entry)) (keyType (fst entry))
    (message (LastError.error (snd entry)))
    (LastError.timestamp (snd entry)) (LastError.count (snd entry)).

(** after two exhausted calls of [fetchUser], eight failures on record *)
Definition eightFailures : ErrorHandler :=
  let first := retryOperation newErrorHandler (alwaysFailing serverDown 0)
                 (threeRetries "fetchUser") in
  handler (retryOperation (handler first) (alwaysFailing serverDown 100)
             (threeRetries "fetchUser")).

(** a repository that the token may not read *)
Definition notFound : JsError := mkError None (Some "Not Found") (Some 404).

(** is the entry of [lastErrors] younger than one hour at [now] *)
Definition isRecent (now : Z) (entry : string * LastError.t) : bool :=
  now - 3600000 <? LastError.timestamp (snd entry).

(** ** Definitions for the further properties *)

(** [trackError] called once per time of [times], in turn *)
Definition trackErrors (h : ErrorHandler) (operation : string) (error : JsError)
    (times : list Z) : ErrorHandler :=
  fold_left (fun h now => snd (trackError h operation error now)) times h.

(** the number [obj[k] || 0] is, when the object owns no property [k] or a
    number; [None] when it owns a string *)
Definition numberAt (obj : Map.t Value) (k : string) : option Z :=
  match Map.get k obj with
  | None => Some 0
  | Some (Number n) => Some n
  | Some (Text _) => None
  end.

(** the values of a grouped-count object, summed; [None] when one of them is
    not a number *)
Fixpoint sumValues (obj : Map.t Value) : option Z :=
  match obj with
  | [] => Some 0
  | (_, Number n) :: obj' => option_map (Z.add n) (sumValues obj')
  | (_, Text _) :: _ => None
  end.

(** no tracking key has a first or second segment that names a member of
    [Object.prototype] *)
Definition ownNames (h : ErrorHandler) : Prop :=
  Forall (fun entry => Obj.inherited (keyOperation (fst entry)) = None
                       /\ Obj.inherited (propertyName (keyType (fst entry))) = None)
    (errorCounts h).

(** every window has counted at least one request, and no more than its
    [maxRequests] (one, when [maxRequests] is below one) *)
Definition boundedWindows (h : ErrorHandler) : Prop :=
  Forall (fun entry => 1 <= Limit.count (snd entry)
                       /\ Limit.count (snd entry)
                          <= Z.max 1 (Limit.maxRequests (snd entry)))
    (rateLimits h).

(** every tracking entry has counted at least one failure *)
Definition positiveCounts (h : ErrorHandler) : Prop :=
  Forall (fun entry => 1 <= Tracking.count (snd entry)) (errorCounts h).


(** a delay between 0 and one and a half times the cap *)
Definition delayInRange (maxDelay : Z) (delay : Q) : Prop :=
  (0 <= delay)%Q /\ (delay <= inject_Z maxDelay * (3 # 2))%Q.

(** ** App.js: the local retry helper and the naming of notes *)

Module App.

(** a settled call of the helper: the value it resolves to or the error
    thrown, the invocations made and the delays waited (ms).  A value is an
    [option R], [None] being [undefined]: the operation may resolve to it,
    and the helper resolves to it when it ends without a [return]. *)
Record Run (R : Type) : Type := mkRun {
  outcome : JsError + option R;
  invocations : nat;
  delays : list Z
}.
Arguments mkRun {R}.
Arguments outcome {R}.
Arguments invocations {R}.
Arguments delays {R}.

(** [for (let i = 0; i < maxRetries; i++)], entered at [i] with [remaining]
    iterations before the loop condition fails; when it fails the function
    ends without a [return]. *)
Fixpoint tries {R : Type} (operation : nat -> JsError + option R) (maxRetries : nat)
    (remaining i : nat) (slept : list Z) : Run R :=
  match remaining with
  | O => mkRun (inr None) i slept
  | S remaining' =>
      match operation i with
      | inr result => mkRun (inr result) (S i) slept
      | inl error =>
          if (i =? maxRetries - 1)%nat then mkRun (inl error) (S i) slept
          else tries operation maxRetries remaining' (S i)
                 (slept ++ [1000 * (Z.of_nat i + 1)])
      end
  end.

(** [retryOperation(operation, maxRetries = 3)] of App.js; [operation i] is
    how the i-th [await operation()] settles *)
Definition retryOperation {R : Type} (operation : nat -> JsError + option R)
    (maxRetries : option nat) : Run R :=
  let maxRetries := orDefault 3%nat maxRetries in
  tries operation maxRetries maxRetries 0 [].

(** [s.replace(/x/g, y)] for one character [x] *)
Fixpoint replaceChar (x y : ascii) (s : string) : string :=
  match s with
  | EmptyString => EmptyString
  | String c s' => String (if Ascii.eqb c x then y else c) (replaceChar x y s')
  end.

(** the string less its first [n] characters *)
Fixpoint skip (n : nat) (s : string) : string :=
  match n, s with
  | O, _ => s
  | S n', String _ s' => skip n' s'
  | S _, EmptyString => EmptyString
  end.

(** [s.replace(needle, replacement)] with a string pattern: the first
    occurrence only (the replacements used here hold no [$]) *)
Fixpoint replace (s needle replacement : string) : string :=
  if String.prefix needle s then replacement ++ skip (String.length needle) s
  else match s with
       | EmptyString => EmptyString
       | String c s' => String c (replace s' needle replacement)
       end.

(** [s.endsWith(suffix)] *)
Fixpoint endsWith (s suffix : string) : bool :=
  String.eqb s suffix
  || match s with
     | EmptyString => false
     | String _ s' => endsWith s' suffix
     end.

(** [iso.replace(/[:.]/g, '-').replace('T', '_')], the timestamp [saveNotes]
    and [importNotes] put in a file name, from [new Date().toISOString()] *)
Definition timestamp (iso : string) : string :=
  replace (replaceChar "." "-" (replaceChar ":" "-" iso)) "T" "_".

(** [`gitnote-${timestamp}.md`] *)
Definition fileName (timestamp : string) : string :=
  "gitnote-" ++ timestamp ++ ".md".

(** the filter of [fetchNotes] on a directory entry *)
Definition isGitNote (itemType name : string) : bool :=
  String.eqb itemType "file" && Str.startsWith name "gitnote-" && endsWith name ".md".

(** the heading of a note card: [name.replace('gitnote-', '').replace('.md', '')] *)
Definition title (name : string) : string :=
  replace (replace name "gitnote-" "") ".md" "".

(** the string the sort comparators hand to [new Date]:
    [title.replace(/_/g, 'T').replace(/-/g, ':')] *)
Definition dateString (name : string) : string :=
  replaceChar "-" ":" (replaceChar "_" "T" (title name)).

End App.

(** ** MLCommitReminder.js: commit days and the commit streak *)

Module Insights.

(** the fields of a GitHub event that [processCommitData] reads;
    [commits] is [payload.commits.length] *)
Record Event : Type := mkEvent {
  type : string;
  created_at : string;
  commits : Z
}.

(** one element of the array [processCommitData] returns *)
Record Day : Type := mkDay {
  date : string;
  commitCount : Z;
  hour : Z;
  dayOfWeek : Z
}.

Section Dates.
(** What the code asks of [Date] and date-fns, as functions of the time
    string: [format(new Date(t), 'yyyy-MM-dd')], [new Date(t).getHours()],
    [new Date(day).getDay()], and [new Date(t) >= startDate]. *)
Variables (dayOf : string -> string) (hourOf : string -> Z)
          (weekdayOf : string -> Z) (notBefore : string -> bool).

(** body of [commitEvents.forEach] *)
Definition addEvent (dailyCommits : Map.t Day) (event : Event) : Map.t Day :=
  let date := dayOf (created_at event) in
  let hour := hourOf (created_at event) in
  let day :=
    match Map.get date dailyCommits with
    | Some day => day
    | None => mkDay date 0 hour (weekdayOf date)
    end in
  Map.set date
    (mkDay (Insights.date day) (commitCount day + commits event) (Insights.hour day)
       (dayOfWeek day))
    dailyCommits.

(** [processCommitData(events, startDate)]: [Object.values] of the days, in
    the order their dates were first met *)
Definition processCommitData (events : list Event) : list Day :=
  let commitEvents :=
    filter (fun event => String.eqb (type event) "PushEvent"
                         && notBefore (created_at event)) events in
  map snd (fold_left addEvent commitEvents Map.empty).
End Dates.

(** is the day dated today or yesterday *)
Definition isRecentDay (today yesterday : string) (day : Day) : bool :=
  String.eqb (date day) today || String.eqb (date day) yesterday.

(** body of the streak loop of [calculateMLInsights], on [(streak, currentStreak)] *)
Definition streakStep (today yesterday : string) (state : nat * nat) (day : Day) :
    nat * nat :=
  let '(streak, currentStreak) := state in
  if isRecentDay today yesterday day then (streak, S currentStreak)
  else if (0 <? currentStreak)%nat then (Nat.max streak currentStreak, 0%nat)
  else (streak, currentStreak).

(** the streak of [calculateMLInsights]: the loop runs from the last element
    of the sorted array to the first, then takes the maximum once more.
    [sorted] is [commitData.sort(...)], whose order rests on [Date]; for an
    empty array the function returns a streak of 0 before the loop, which is
    also what the loop gives. *)
Definition commitStreak (sort : list Day -> list Day) (today yesterday : string)
    (commitData : list Day) : nat :=
  let sorted := sort commitData in
  let '(streak, currentStreak) :=
    fold_left (streakStep today yesterday) (rev sorted) (0%nat, 0%nat) in
  Nat.max streak currentStreak.

End Insights.

(** the day of an ISO time string, its first ten characters *)
Definition isoDay (t : string) : string := String.substring 0 10 t.

(** three pushes, two of them on the same day *)
Definition threePushes : list Insights.Event :=
  [ Insights.mkEvent "PushEvent" "2024-01-13T09:00:00Z" 2;
    Insights.mkEvent "PushEvent" "2024-01-15T10:30:00Z" 1;
    Insights.mkEvent "PushEvent" "2024-01-15T18:45:00Z" 3 ].

(** * Properties *)

(** ** Lemmas on maps *)

Section MapFacts.
Context {V : Type}.
Implicit Types (m : Map.t V) (k : string) (v : V).

Lemma get_set_same k v m : Map.get k (Map.set k v m) = Some v.
Proof.
  induction m as [| [k' v'] m IH]; simpl.
  - now rewrite String.eqb_refl.
  - destruct (String.eqb k k') eqn:E; simpl; rewrite ?String.eqb_refl, ?E; auto.
Qed.

Lemma get_set_other k k' v m :
  k <> k' -> Map.get k (Map.set k' v m) = Map.get k m.
Proof.
  intros Hne. induction m as [| [k0 v0] m IH]; simpl.
  - apply String.eqb_neq in Hne. now rewrite Hne.
  - destruct (String.eqb k' k0) eqn:E; simpl.
    + apply String.eqb_eq in E. subst k0.
      apply String.eqb_neq in Hne. now rewrite Hne.
    + now rewrite IH.
Qed.

Lemma get_delete_same k m : Map.get k (Map.delete k m) = None.
Proof.
  unfold Map.delete. induction m as [| [k' v'] m IH]; simpl; auto.
  destruct (String.eqb k k') eqn:E; simpl; auto. now rewrite E.
Qed.

Lemma get_delete_other k k' m :
  k <> k' -> Map.get k (Map.delete k' m) = Map.get k m.
Proof.
  intros Hne. unfold Map.delete.
  induction m as [| [k0 v0] m IH]; simpl; auto.
  destruct (String.eqb k' k0) eqn:E; simpl.
  - apply String.eqb_eq in E. subst k0.
    apply String.eqb_neq in Hne. now rewrite Hne.
  - now rewrite IH.
Qed.

Lemma get_none_not_in k m : Map.get k m = None <-> ~ In k (Map.keys m).
Proof.
  induction m as [| [k' v'] m IH]; simpl.
  - tauto.
  - destruct (String.eqb k k') eqn:E.
    + apply String.eqb_eq in E. subst. split; [discriminate | tauto].
    + apply String.eqb_neq in E. rewrite IH. split; [intros H [H' | H']|]; try tauto.
      congruence.
Qed.

Lemma has_true_in k m : Map.has k m = true <-> In k (Map.keys m).
Proof.
  unfold Map.has. destruct (Map.get k m) eqn:E.
  - split; auto. intros _.
    destruct (in_dec string_dec k (Map.keys m)) as [H | H]; auto.
    apply get_none_not_in in H. congruence.
  - apply get_none_not_in in E. split; [discriminate | tauto].
Qed.

(** deleting several keys in turn is one filter *)
Lemma delete_filter k (p : string * V -> bool) m :
  Map.delete k (filter p m)
  = filter (fun kv => p kv && negb (String.eqb k (fst kv))) m.
Proof.
  unfold Map.delete. induction m as [| kv m IH]; simpl; auto.
  destruct (p kv); simpl; [destruct (String.eqb k (fst kv)); simpl |]; now rewrite IH.
Qed.
End MapFacts.

(** ** Classification *)

Lemma getErrorType_in_classes (e : JsError) : In (getErrorType e) classes.
Proof.
  unfold getErrorType, classes.
  repeat match goal with |- context [if ?b then _ else _] => destruct b end;
    simpl; tauto.
Qed.

Lemma getErrorType_status_irrelevant (e : JsError) (s : option Z) :
  messageDecides e = true ->
  getErrorType (mkError (type e) (message e) s) = getErrorType e.
Proof.
  unfold messageDecides, getErrorType, messageIncludes. simpl.
  destruct (message e) as [m |]; [| discriminate].
  destruct (Str.includes m "rate limit"); [reflexivity |].
  destruct (Str.includes m "network"); [reflexivity |].
  destruct (Str.includes m "authentication"); [reflexivity |].
  destruct (Str.includes m "permission"); [reflexivity | discriminate].
Qed.

(** [shouldNotRetry] holds for two classes only: the list spells the third
    one [authentication], a string [getErrorType] never returns. *)
Lemma shouldNotRetry_true_iff (e : JsError) :
  shouldNotRetry e = true
  <-> getErrorType e = "permission" \/ getErrorType e = "not_found".
Proof.
  unfold shouldNotRetry.
  pose proof (getErrorType_in_classes e) as Hin.
  unfold classes in Hin. simpl in Hin.
  split.
  - intros H.
    repeat (destruct Hin as [Hin | Hin]; [rewrite <- Hin in *; try discriminate H; auto |]).
    contradiction.
  - intros [H | H]; rewrite H; reflexivity.
Qed.

Lemma shouldNotRetry_false (e : JsError) :
  getErrorType e <> "permission" -> getErrorType e <> "not_found" ->
  shouldNotRetry e = false.
Proof.
  intros H1 H2. destruct (shouldNotRetry e) eqn:E; [| reflexivity].
  apply shouldNotRetry_true_iff in E. tauto.
Qed.

(** C7 (as amended).  Classification follows the table in source order, message
    checks first, with [general] as the fallback; once a message check applies
    the status plays no part.  An error with status 401 whose message contains
    "network" is classified [network] unless the message also contains
    "rate limit", which is checked earlier and gives [rate_limit]; it is never
    classified [auth]. *)
Theorem getErrorType_precedence (e : JsError) :
  getErrorType e = firstMatch specRules "general" e
  /\ (forall s, messageDecides e = true ->
        getErrorType (mkError (type e) (message e) s) = getErrorType e)
  /\ (status e = Some 401 -> messageIncludes e "network" = true ->
      getErrorType e
      = (if messageIncludes e "rate limit" then "rate_limit" else "network")
      /\ getErrorType e <> "auth").
Proof.
  split; [reflexivity |].
  split; [intros s; apply getErrorType_status_irrelevant |].
  intros _ Hnet. unfold getErrorType. rewrite Hnet.
  destruct (messageIncludes e "rate limit"); split; (reflexivity || discriminate).
Qed.

Lemma getErrorType_precedence_witness :
  getErrorType (mkError None (Some "network timeout") (Some 401)) = "network".
Proof.
  apply (proj2 (proj2 (getErrorType_precedence
                         (mkError None (Some "network timeout") (Some 401)))));
    reflexivity.
Defined.

(** C7, the claim as stated fails: status 401, a message containing "network",
    and yet the class is [rate_limit], because that check comes first. *)
Lemma getErrorType_network_401_counterexample :
  let e := mkError None (Some "network rate limit reached") (Some 401) in
  status e = Some 401
  /\ messageIncludes e "network" = true
  /\ getErrorType e = "rate_limit"
  /\ getErrorType e <> "network".
Proof.
  cbv zeta. repeat split; try reflexivity. discriminate.
Qed.

(** ** The retry loop *)

Lemma trackingKey_classified (operation : string) (e : JsError) m s :
  trackingKey operation (mkError (Some (getErrorType e)) m s)
  = operation ++ "_" ++ getErrorType e.
Proof.
  unfold trackingKey. simpl.
  pose proof (getErrorType_in_classes e) as Hin. unfold classes in Hin. simpl in Hin.
  repeat (destruct Hin as [Hin | Hin]; [rewrite <- Hin; reflexivity |]).
  contradiction.
Qed.

Lemma rateLimitCheck_not_limited (h : ErrorHandler) (key : string) (now : Z) :
  isRateLimited h key now = false -> rateLimitCheck h key now = None.
Proof. unfold rateLimitCheck. now intros ->. Qed.

Lemma rateLimitCheck_limited (h : ErrorHandler) (key : string) (now : Z) (limit : Limit.t) :
  Map.get key (rateLimits h) = Some limit -> now < Limit.resetTime limit ->
  rateLimitCheck h key now = Some (RateLimited key (Limit.resetTime limit)).
Proof.
  intros Hget Hlt. unfold rateLimitCheck, isRateLimited. rewrite Hget.
  apply Z.ltb_lt in Hlt. now rewrite Hlt.
Qed.

(** the circuit-breaker block never touches the rate-limit windows *)
Lemma circuitBreaker_rateLimits h key threshold timeout now h' :
  circuitBreaker h key threshold timeout now = inr h' -> rateLimits h' = rateLimits h.
Proof.
  unfold circuitBreaker.
  destruct (Map.get key (errorCounts h)) as [tracking |]; [| now intros [= <-]].
  destruct (threshold <=? Tracking.count tracking); [| now intros [= <-]].
  destruct (now - Tracking.lastError tracking <? timeout); [discriminate |].
  now intros [= <-].
Qed.

Section LoopFacts.
Context {R : Type} (w : World R).
Variables (key : string) (maxRetries : nat) (maxDelay : Z).

(** the loop never invokes the operation more often than it has iterations *)
Lemma attempts_invocations_le remaining :
  forall attempt lastError h slept,
    (invocations (attempts w key maxRetries maxDelay remaining attempt lastError h slept)
     <= attempt + remaining)%nat.
Proof.
  induction remaining as [| remaining IH]; intros attempt lastError h slept; simpl.
  - lia.
  - destruct (operation w attempt) as [error | result]; simpl; [| lia].
    destruct (shouldNotRetry error); simpl; [lia |].
    destruct (attempt =? maxRetries)%nat; simpl; [lia |].
    etransitivity; [apply IH | lia].
Qed.

(** a failure that [shouldNotRetry] recognises ends the loop at once *)
Lemma attempts_no_retry remaining attempt lastError h slept error :
  operation w attempt = inl error -> shouldNotRetry error = true ->
  let r := attempts w key maxRetries maxDelay (S remaining) attempt lastError h slept in
  invocations r = S attempt /\ outcome r = inl (Thrown (Some error)).
Proof.
  intros Hop Hno. simpl. rewrite Hop, Hno. simpl. auto.
Qed.

(** failures that [shouldNotRetry] lets through use up every iteration; the
    error thrown is the one of the last invocation, as recorded last *)
Lemma attempts_all_fail remaining :
  forall attempt lastError h slept,
    (attempt + remaining = S maxRetries)%nat -> (0 < remaining)%nat ->
    (forall i, (attempt <= i <= maxRetries)%nat ->
               exists e, operation w i = inl e /\ shouldNotRetry e = false) ->
    let r := attempts w key maxRetries maxDelay remaining attempt lastError h slept in
    invocations r = S maxRetries
    /\ exists e, operation w maxRetries = inl e
         /\ outcome r = inl (Thrown (Some e))
         /\ exists recorded,
              Map.get (key ++ "_" ++ getErrorType e) (lastErrors (handler r)) = Some recorded
              /\ LastError.error recorded
                 = mkError (Some (getErrorType e)) (message e) (status e)
              /\ LastError.timestamp recorded = nowTrack w maxRetries.
Proof.
  induction remaining as [| remaining IH]; intros attempt lastError h slept Hsum Hpos Hfail;
    [lia |].
  destruct (Hfail attempt ltac:(lia)) as (e & Hop & Hno).
  simpl. rewrite Hop, Hno.
  destruct (Nat.eqb_spec attempt maxRetries) as [-> | Hne].
  - simpl. split; [reflexivity |]. exists e. split; [assumption |]. split; [reflexivity |].
    rewrite trackingKey_classified. eexists. rewrite get_set_same.
    split; [reflexivity |]. simpl. auto.
  - apply IH; [lia | lia |]. intros i Hi. apply Hfail. lia.
Qed.
End LoopFacts.

(** a call that passes both entry checks runs the loop from attempt 0 *)
Lemma retryOperation_enters_loop {R : Type} (h h' : ErrorHandler) (w : World R)
    (options : Options) :
  let key := orDefault "unknown" (operationName options) in
  let n := orDefault 3%nat (maxRetries options) in
  circuitBreaker h key (orDefault 5 (circuitBreakerThreshold options))
    (orDefault 60000 (circuitBreakerTimeout options)) (nowCircuit w) = inr h' ->
  isRateLimited h key (nowRateLimit w) = false ->
  retryOperation h w options
  = attempts w key n (orDefault 30000 (maxDelay options)) (S n) 0 None h' [].
Proof.
  intros key n Hcb Hrl. unfold retryOperation. fold key. rewrite Hcb.
  rewrite rateLimitCheck_not_limited; [reflexivity |].
  unfold isRateLimited in *. now rewrite (circuitBreaker_rateLimits _ _ _ _ _ _ Hcb).
Qed.

(** C4.  An operation that fails at every invocation with a class outside
    {auth, permission, not_found} is invoked exactly [maxRetries + 1] times by a
    call that gets past the circuit-breaker and rate-limit checks; the call then
    throws the error of the last invocation, which is also the one recorded
    last.  (The delays between attempts always elapse in the model.) *)
Theorem retryOperation_exhausts_retries {R : Type} (h : ErrorHandler) (w : World R)
    (options : Options) :
  let key := orDefault "unknown" (operationName options) in
  let n := orDefault 3%nat (maxRetries options) in
  circuitOpen h options (nowCircuit w) = false ->
  isRateLimited h key (nowRateLimit w) = false ->
  (forall i, (i <= n)%nat ->
     exists e, operation w i = inl e /\ ~ In (getErrorType e) specNoRetry) ->
  let r := retryOperation h w options in
  invocations r = S n
  /\ exists e, operation w n = inl e
       /\ outcome r = inl (Thrown (Some e))
       /\ exists recorded,
            Map.get (key ++ "_" ++ getErrorType e) (lastErrors (handler r)) = Some recorded
            /\ LastError.error recorded
               = mkError (Some (getErrorType e)) (message e) (status e)
            /\ LastError.timestamp recorded = nowTrack w n.
Proof.
  intros key n Hcb Hrl Hfail r. subst r.
  unfold circuitOpen in Hcb. fold key in Hcb.
  destruct (circuitBreaker h key _ _ _) as [raised | h'] eqn:Ecb; [discriminate |].
  rewrite (retryOperation_enters_loop h h' w options Ecb Hrl).
  apply attempts_all_fail; [lia | lia |].
  intros i Hi. destruct (Hfail i ltac:(lia)) as (e & Hop & Hclass).
  exists e. split; [assumption |].
  apply shouldNotRetry_false; intros Heq; apply Hclass; rewrite Heq; simpl; tauto.
Qed.

Lemma retryOperation_exhausts_retries_witness :
  invocations (retryOperation newErrorHandler (alwaysFailing serverDown 0) noOptions)
  = 4%nat.
Proof.
  apply (retryOperation_exhausts_retries newErrorHandler
           (alwaysFailing serverDown 0) noOptions).
  - reflexivity.
  - reflexivity.
  - intros i _. exists serverDown. split; [reflexivity |].
    simpl. intuition discriminate.
Defined.

(** failures classified [auth] are retried like any retryable failure *)
Lemma auth_failures_exhaust_retries {R : Type} (h : ErrorHandler) (w : World R)
    (options : Options) :
  circuitOpen h options (nowCircuit w) = false ->
  isRateLimited h (orDefault "unknown" (operationName options)) (nowRateLimit w) = false ->
  (forall i, exists e, operation w i = inl e /\ getErrorType e = "auth") ->
  invocations (retryOperation h w options) = S (orDefault 3%nat (maxRetries options)).
Proof.
  intros Hcb Hrl Hfail. unfold circuitOpen in Hcb.
  destruct (circuitBreaker h _ _ _ _) as [raised | h'] eqn:Ecb; [discriminate |].
  rewrite (retryOperation_enters_loop h h' w options Ecb Hrl).
  apply attempts_all_fail; [lia | lia |].
  intros i _. destruct (Hfail i) as (e & Hop & Hclass).
  exists e. split; [assumption |].
  apply shouldNotRetry_false; rewrite Hclass; discriminate.
Qed.

(** failures classified [permission] or [not_found] get a single attempt *)
Lemma permission_not_found_single_attempt {R : Type} (h : ErrorHandler) (w : World R)
    (options : Options) (e : JsError) :
  circuitOpen h options (nowCircuit w) = false ->
  isRateLimited h (orDefault "unknown" (operationName options)) (nowRateLimit w) = false ->
  operation w 0%nat = inl e ->
  getErrorType e = "permission" \/ getErrorType e = "not_found" ->
  invocations (retryOperation h w options) = 1%nat
  /\ outcome (retryOperation h w options) = inl (Thrown (Some e)).
Proof.
  intros Hcb Hrl Hop Hclass. unfold circuitOpen in Hcb.
  destruct (circuitBreaker h _ _ _ _) as [raised | h'] eqn:Ecb; [discriminate |].
  rewrite (retryOperation_enters_loop h h' w options Ecb Hrl).
  apply attempts_no_retry; [assumption |]. now apply shouldNotRetry_true_iff.
Qed.

(** C2, on the code: a rejected token (status 401) classifies as [auth], the
    test [shouldNotRetry] answers false for it, and the call invokes the
    operation four times under [maxRetries: 3] before it throws the error. *)
Theorem auth_failure_is_retried :
  getErrorType badCredentials = "auth"
  /\ shouldNotRetry badCredentials = false
  /\ invocations (retryOperation newErrorHandler (alwaysFailing badCredentials 0)
                    (threeRetries "fetchUser")) = 4%nat
  /\ outcome (retryOperation newErrorHandler (alwaysFailing badCredentials 0)
                (threeRetries "fetchUser")) = inl (Thrown (Some badCredentials)).
Proof.
  repeat split; vm_compute; reflexivity.
Qed.

(** ** Success and the tracking state *)

(** On success the entry under the plain operation name is deleted, and no
    other entry of [errorCounts] is. *)
Lemma attempts_success_deletes_key {R : Type} (w : World R) key maxRetries maxDelay
    remaining :
  forall attempt lastError h slept result,
    outcome (attempts w key maxRetries maxDelay remaining attempt lastError h slept)
    = inr result ->
    Map.get key
      (errorCounts
         (handler (attempts w key maxRetries maxDelay remaining attempt lastError h slept)))
    = None.
Proof.
  induction remaining as [| remaining IH];
    intros attempt lastError h slept result; simpl; [discriminate |].
  destruct (operation w attempt) as [error | res]; simpl.
  - destruct (shouldNotRetry error); simpl; [discriminate |].
    destruct (attempt =? maxRetries)%nat; simpl; [discriminate |].
    apply IH.
  - intros _. apply get_delete_same.
Qed.

(** C3, on the code: the call returns the value after three invocations, and
    the two failures it recorded are still tracked afterwards, under the
    composite key that [trackError] builds; the deletion on success addresses
    the plain operation name, which holds no entry. *)
Theorem success_leaves_recorded_failures :
  let r := retryOperation newErrorHandler (failsTwice 1000) (threeRetries "saveNote") in
  outcome r = inr "saved"
  /\ invocations r = 3%nat
  /\ Map.get "saveNote" (errorCounts (handler r)) = None
  /\ Map.get "saveNote_network" (errorCounts (handler r))
     = Some (Tracking.mk 2 1001 1002)
  /\ Map.has "saveNote_network" (lastErrors (handler r)) = true.
Proof.
  cbv zeta. repeat split; vm_compute; reflexivity.
Qed.

(** ** The circuit breaker *)

(** C1 (as amended).  When the entry of [errorCounts] stored under the
    operation name counts at least [circuitBreakerThreshold] failures: a call
    made less than [circuitBreakerTimeout] after the last of them throws
    [CircuitOpen] without invoking the operation and leaves the state as it
    was; a later call deletes that entry and goes on to the rate-limit check
    and the ordinary attempt loop, which may invoke the operation up to
    [maxRetries + 1] times. *)
Theorem circuitBreaker_open_then_reset {R : Type} (h : ErrorHandler) (w : World R)
    (options : Options) (tracking : Tracking.t) :
  let key := orDefault "unknown" (operationName options) in
  let n := orDefault 3%nat (maxRetries options) in
  let timeout := orDefault 60000 (circuitBreakerTimeout options) in
  Map.get key (errorCounts h) = Some tracking ->
  orDefault 5 (circuitBreakerThreshold options) <= Tracking.count tracking ->
  (nowCircuit w - Tracking.lastError tracking < timeout ->
     retryOperation h w options = mkRun (inl (CircuitOpen key)) 0 [] h)
  /\ (timeout <= nowCircuit w - Tracking.lastError tracking ->
      let h' := withErrorCounts h (Map.delete key (errorCounts h)) in
      Map.get key (errorCounts h') = None
      /\ retryOperation h w options
         = match rateLimitCheck h' key (nowRateLimit w) with
           | Some raised => mkRun (inl raised) 0 [] h'
           | None =>
               attempts w key n (orDefault 30000 (maxDelay options)) (S n) 0 None h' []
           end
      /\ (invocations (retryOperation h w options) <= S n)%nat).
Proof.
  intros key n timeout Hget Hcount.
  assert (Hthr : (orDefault 5 (circuitBreakerThreshold options)
                  <=? Tracking.count tracking) = true) by now apply Z.leb_le.
  split.
  - intros Hrecent. unfold retryOperation, circuitBreaker. fold key. rewrite Hget, Hthr.
    fold timeout. apply Z.ltb_lt in Hrecent. now rewrite Hrecent.
  - intros Hover h'.
    assert (Hrun : retryOperation h w options
                   = match rateLimitCheck h' key (nowRateLimit w) with
                     | Some raised => mkRun (inl raised) 0 [] h'
                     | None =>
                         attempts w key n (orDefault 30000 (maxDelay options))
                           (S n) 0 None h' []
                     end).
    { unfold retryOperation, circuitBreaker. fold key. rewrite Hget, Hthr.
      fold timeout. apply Z.ltb_ge in Hover. now rewrite Hover. }
    split; [apply get_delete_same |]. split; [exact Hrun |].
    rewrite Hrun. destruct (rateLimitCheck h' key (nowRateLimit w)); [simpl; lia |].
    apply (attempts_invocations_le w key n _ (S n) 0%nat).
Qed.

Lemma circuitBreaker_open_then_reset_witness :
  retryOperation fiveNetworkFailures (alwaysFailing serverDown 59999) syncNetwork
  = mkRun (inl (CircuitOpen "sync_network")) 0 [] fiveNetworkFailures.
Proof.
  apply (proj1 (circuitBreaker_open_then_reset fiveNetworkFailures
                  (alwaysFailing serverDown 59999) syncNetwork (Tracking.mk 5 0 0)
                  eq_refl ltac:(simpl; lia))).
  simpl. lia.
Defined.

(** C1, the claim as stated fails: the breaker is open (five failures, the
    last at time 0) and the timeout of 60000 ms has just elapsed.  The call
    that follows invokes the operation four times, not once, and so does the
    next call a millisecond later. *)
Lemma circuitBreaker_half_open_counterexample :
  let first :=
    retryOperation fiveNetworkFailures (alwaysFailing serverDown 60000) syncNetwork in
  let second :=
    retryOperation (handler first) (alwaysFailing serverDown 60001) syncNetwork in
  Map.get "sync_network" (errorCounts fiveNetworkFailures) = Some (Tracking.mk 5 0 0)
  /\ invocations first = 4%nat
  /\ invocations second = 4%nat.
Proof.
  cbv zeta. repeat split; vm_compute; reflexivity.
Qed.

(** ** Rate-limit windows *)

(** C5.  For an operation name with no window yet, three calls of
    [applyRateLimit(x, 1000, 2)] within 1000 ms of the first return false,
    false, true; a fourth call once the window is over returns false and leaves
    a fresh window with count 1 that ends 1000 ms after that call. *)
Theorem applyRateLimit_three_calls_then_reset (h : ErrorHandler) (x : string)
    (t0 t1 t2 t3 : Z) :
  Map.get x (rateLimits h) = None ->
  t1 < t0 + 1000 -> t2 < t0 + 1000 -> t0 + 1000 <= t3 ->
  let call h now := applyRateLimit h x (Some 1000) (Some 2) now in
  let c1 := call h t0 in
  let c2 := call (snd c1) t1 in
  let c3 := call (snd c2) t2 in
  let c4 := call (snd c3) t3 in
  fst c1 = false /\ fst c2 = false /\ fst c3 = true /\ fst c4 = false
  /\ Map.get x (rateLimits (snd c1)) = Some (Limit.mk 1 (t0 + 1000) 1000 2)
  /\ Map.get x (rateLimits (snd c3)) = Some (Limit.mk 2 (t0 + 1000) 1000 2)
  /\ Map.get x (rateLimits (snd c4)) = Some (Limit.mk 1 (t3 + 1000) 1000 2).
Proof.
  intros Hnew H1 H2 H3 call c1 c2 c3 c4.
  assert (E1 : c1 = (false,
                     withRateLimits h
                       (Map.set x (Limit.mk 1 (t0 + 1000) 1000 2) (rateLimits h)))).
  { subst c1 call. unfold applyRateLimit. simpl. now rewrite Hnew. }
  assert (G1 : Map.get x (rateLimits (snd c1)) = Some (Limit.mk 1 (t0 + 1000) 1000 2)).
  { rewrite E1. simpl. apply get_set_same. }
  assert (E2 : c2 = (false,
                     withRateLimits (snd c1)
                       (Map.set x (Limit.mk 2 (t0 + 1000) 1000 2) (rateLimits (snd c1))))).
  { subst c2 call. unfold applyRateLimit. cbv beta. rewrite G1. simpl.
    replace (t0 + 1000 <=? t1) with false by (symmetry; apply Z.leb_gt; lia).
    reflexivity. }
  assert (G2 : Map.get x (rateLimits (snd c2)) = Some (Limit.mk 2 (t0 + 1000) 1000 2)).
  { rewrite E2. simpl. apply get_set_same. }
  assert (E3 : c3 = (true, snd c2)).
  { subst c3 call. unfold applyRateLimit. cbv beta. rewrite G2. simpl.
    replace (t0 + 1000 <=? t2) with false by (symmetry; apply Z.leb_gt; lia).
    reflexivity. }
  assert (E4 : c4 = (false,
                     withRateLimits (snd c3)
                       (Map.set x (Limit.mk 1 (t3 + 1000) 1000 2) (rateLimits (snd c3))))).
  { subst c4 call. unfold applyRateLimit. cbv beta. rewrite E3. cbn [snd]. rewrite G2. simpl.
    replace (t0 + 1000 <=? t3) with true by (symmetry; apply Z.leb_le; lia).
    reflexivity. }
  rewrite E1, E2 at 1. rewrite E3 at 1. rewrite E4 at 1. cbn [fst].
  repeat split; try assumption.
  - rewrite E3. exact G2.
  - rewrite E4. simpl. apply get_set_same.
Qed.

Lemma applyRateLimit_three_calls_then_reset_witness :
  let call h now := applyRateLimit h "x" (Some 1000) (Some 2) now in
  let c1 := call newErrorHandler 5000 in
  let c2 := call (snd c1) 5300 in
  let c3 := call (snd c2) 5999 in
  let c4 := call (snd c3) 6000 in
  fst c1 = false /\ fst c2 = false /\ fst c3 = true /\ fst c4 = false
  /\ Map.get "x" (rateLimits (snd c1)) = Some (Limit.mk 1 6000 1000 2)
  /\ Map.get "x" (rateLimits (snd c3)) = Some (Limit.mk 2 6000 1000 2)
  /\ Map.get "x" (rateLimits (snd c4)) = Some (Limit.mk 1 7000 1000 2).
Proof.
  apply (applyRateLimit_three_calls_then_reset newErrorHandler "x" 5000 5300 5999 6000);
    (reflexivity || lia).
Defined.

Lemma keys_set {V : Type} (k : string) (v : V) (m : Map.t V) :
  Map.keys (Map.set k v m) = if Map.has k m then Map.keys m else (Map.keys m ++ [k])%list.
Proof.
  unfold Map.has. induction m as [| [k' v'] m IH]; simpl; [reflexivity |].
  destruct (String.eqb k k') eqn:E; simpl.
  - apply String.eqb_eq in E. now subst.
  - rewrite IH. now destruct (Map.get k m).
Qed.

Lemma uniqueKeys_set {V : Type} (k : string) (v : V) (m : Map.t V) :
  uniqueKeys m -> uniqueKeys (Map.set k v m).
Proof.
  unfold uniqueKeys. intros Hm. rewrite keys_set.
  destruct (Map.has k m) eqn:E; [assumption |].
  assert (Hnot : ~ In k (Map.keys m)).
  { intros Hin. apply has_true_in in Hin. congruence. }
  apply NoDup_rev in Hm. rewrite <- (rev_involutive (Map.keys m ++ [k])%list).
  apply NoDup_rev. rewrite rev_app_distr. simpl. constructor; [| assumption].
  now rewrite <- in_rev.
Qed.

Lemma applyRateLimit_uniqueKeys (h : ErrorHandler) operation windowMs maxRequests now :
  uniqueKeys (rateLimits h) ->
  uniqueKeys (rateLimits (snd (applyRateLimit h operation windowMs maxRequests now))).
Proof.
  intros Hm. unfold applyRateLimit.
  destruct (Map.get operation (rateLimits h)) as [limit |]; simpl.
  - destruct (Limit.resetTime limit <=? now); simpl; [now apply uniqueKeys_set |].
    destruct (Limit.maxRequests limit <=? Limit.count limit); simpl;
      [assumption | now apply uniqueKeys_set].
  - now apply uniqueKeys_set.
Qed.

(** the status object holds, for each window, the status computed from it *)
(** what the loop of [getRateLimitStatus] leaves in the object: a property
    for each key other than [__proto__], and the entry of [__proto__] as the
    prototype *)
Lemma getRateLimitStatus_fold (now : Z) (name : string) (m : Map.t Limit.t) :
  NoDup (Map.keys m) ->
  forall acc,
    let status :=
      fold_left
        (fun status entry =>
           StatusObject.assign status (fst entry) (limitStatus now (snd entry)))
        m acc in
    Map.get name (StatusObject.own status)
    = (if String.eqb name "__proto__" then Map.get name (StatusObject.own acc)
       else match Map.get name m with
            | Some limit => Some (limitStatus now limit)
            | None => Map.get name (StatusObject.own acc)
            end)
    /\ StatusObject.proto status
       = match Map.get "__proto__" m with
         | Some limit => Some (limitStatus now limit)
         | None => StatusObject.proto acc
         end.
Proof.
  induction m as [| [k limit] m IH]; intros Hm acc; cbn [fold_left fst snd].
  - simpl. now destruct (String.eqb name "__proto__").
  - inversion Hm as [| ? ? Hnotin Hm']; subst.
    apply get_none_not_in in Hnotin.
    destruct (IH Hm' (StatusObject.assign acc k (limitStatus now limit))) as (Hown & Hproto).
    cbv zeta. rewrite Hown, Hproto. clear Hown Hproto IH.
    unfold StatusObject.assign. cbn [fst snd Map.get].
    destruct (String.eqb k "__proto__") eqn:Ek; cbn [StatusObject.own StatusObject.proto].
    + apply String.eqb_eq in Ek. subst k. rewrite String.eqb_refl, Hnotin.
      split; [| reflexivity].
      destruct (String.eqb name "__proto__") eqn:En; [reflexivity |].
      reflexivity.
    + rewrite (String.eqb_sym "__proto__" k), Ek. split; [| reflexivity].
      destruct (String.eqb name "__proto__") eqn:En.
      * apply String.eqb_eq in En. subst name.
        apply get_set_other. apply String.eqb_neq in Ek. congruence.
      * destruct (String.eqb name k) eqn:Enk.
        -- apply String.eqb_eq in Enk. subst k. rewrite Hnotin. apply get_set_same.
        -- destruct (Map.get name m); [reflexivity |].
           apply get_set_other. now apply String.eqb_neq.
Qed.

(** [status[name]] of the object returned: the status of the window tracked
    for [name]; without one, what the prototype chain holds *)
Lemma getRateLimitStatus_read (h : ErrorHandler) (now : Z) (name : string) :
  uniqueKeys (rateLimits h) ->
  StatusObject.read (getRateLimitStatus h now) name
  = match Map.get name (rateLimits h) with
    | Some limit => StatusObject.Entry (limitStatus now limit)
    | None =>
        match Map.get "__proto__" (rateLimits h) with
        | Some limit =>
            match StatusObject.field (limitStatus now limit) name with
            | Some value => value
            | None => StatusObject.member name
            end
        | None => StatusObject.member name
        end
    end.
Proof.
  intros Huniq. unfold getRateLimitStatus, StatusObject.read.
  destruct (getRateLimitStatus_fold now name (rateLimits h) Huniq StatusObject.empty)
    as (Hown & Hproto).
  cbv zeta in Hown, Hproto. rewrite Hown, Hproto. clear Hown Hproto.
  cbn [StatusObject.empty StatusObject.own StatusObject.proto Map.empty Map.get].
  destruct (String.eqb name "__proto__") eqn:En.
  - apply String.eqb_eq in En. subst name.
    now destruct (Map.get "__proto__" (rateLimits h)).
  - destruct (Map.get name (rateLimits h)); [reflexivity |].
    now destruct (Map.get "__proto__" (rateLimits h)).
Qed.

(** C9.  While a window is tracked for an operation name with its reset time
    still ahead and fewer requests counted than [maxRequests], [isRateLimited]
    answers true and [getRateLimitStatus] reports [isLimited = false] for the
    same name.  A call of [retryOperation] for that name never invokes the
    operation: unless the circuit-breaker check, which comes first, is the one
    that refuses it, it throws [RateLimited] with the window's reset time. *)
Theorem isRateLimited_disagrees_with_status (h : ErrorHandler) (name : string)
    (limit : Limit.t) (now : Z) :
  uniqueKeys (rateLimits h) ->
  Map.get name (rateLimits h) = Some limit ->
  now < Limit.resetTime limit ->
  Limit.count limit < Limit.maxRequests limit ->
  isRateLimited h name now = true
  /\ (exists status,
        StatusObject.read (getRateLimitStatus h now) name = StatusObject.Entry status
        /\ LimitStatus.isLimited status = false
        /\ LimitStatus.timeUntilReset status = Limit.resetTime limit - now)
  /\ forall (R : Type) (w : World R) (options : Options),
       operationName options = Some name -> nowRateLimit w = now ->
       invocations (retryOperation h w options) = 0%nat
       /\ outcome (retryOperation h w options)
          = inl (if circuitOpen h options (nowCircuit w) then CircuitOpen name
                 else RateLimited name (Limit.resetTime limit)).
Proof.
  intros Huniq Hget Hreset Hcount.
  split; [| split].
  - unfold isRateLimited. rewrite Hget. now apply Z.ltb_lt.
  - exists (limitStatus now limit). rewrite (getRateLimitStatus_read _ _ _ Huniq), Hget.
    split; [reflexivity |]. simpl. split; [| lia].
    replace (Limit.maxRequests limit <=? Limit.count limit) with false
      by (symmetry; apply Z.leb_gt; lia).
    apply andb_false_r.
  - intros R w options Hname Hnow. unfold retryOperation, circuitOpen.
    rewrite Hname. simpl orDefault.
    destruct (circuitBreaker h name _ _ _) as [raised | h'] eqn:Ecb.
    + simpl. split; [reflexivity |]. f_equal.
      unfold circuitBreaker in Ecb.
      destruct (Map.get name (errorCounts h)) as [tracking |]; [| discriminate].
      destruct (_ <=? Tracking.count tracking); [| discriminate].
      destruct (_ <? _); [now injection Ecb | discriminate].
    + rewrite (rateLimitCheck_limited h' name (nowRateLimit w) limit).
      * simpl. auto.
      * now rewrite (circuitBreaker_rateLimits _ _ _ _ _ _ Ecb).
      * now rewrite Hnow.
Qed.

Lemma isRateLimited_disagrees_with_status_witness :
  isRateLimited oneRequestCounted "fetchRepositories" 31000 = true
  /\ (exists status,
        StatusObject.read (getRateLimitStatus oneRequestCounted 31000) "fetchRepositories"
        = StatusObject.Entry status
        /\ LimitStatus.isLimited status = false
        /\ LimitStatus.timeUntilReset status = 61000 - 31000)
  /\ forall (R : Type) (w : World R) (options : Options),
       operationName options = Some "fetchRepositories" -> nowRateLimit w = 31000 ->
       invocations (retryOperation oneRequestCounted w options) = 0%nat
       /\ outcome (retryOperation oneRequestCounted w options)
          = inl (if circuitOpen oneRequestCounted options (nowCircuit w)
                 then CircuitOpen "fetchRepositories"
                 else RateLimited "fetchRepositories" 61000).
Proof.
  apply (isRateLimited_disagrees_with_status oneRequestCounted "fetchRepositories"
           (Limit.mk 1 61000 60000 10) 31000).
  - apply applyRateLimit_uniqueKeys. constructor.
  - reflexivity.
  - simpl. lia.
  - simpl. lia.
Defined.

(** ** Backoff delay *)

(** the code computes the specified formula at base 1000, whatever the options *)
Lemma getRetryDelay_base_1000 (h : ErrorHandler) (operation : string) (attempt : nat)
    (maxDelay : Z) (random : Q) :
  getRetryDelay h operation attempt (Some maxDelay) random
  = specDelay 1000 maxDelay attempt (errorCountFor h operation) (random * 1000).
Proof. reflexivity. Qed.

Lemma errorFactor_pos (errorCount : Z) : 0 <= errorCount -> (0 < errorFactor errorCount)%Q.
Proof.
  intros Hn. unfold errorFactor, Qlt, Qplus, Qmult, inject_Z. cbn [Qnum Qden].
  assert (0 <= Z.min errorCount 5) by lia. lia.
Qed.

(** the scaled cap always bounds the delay; below the cap the delay sits in
    the scaled jitter interval *)
Lemma specDelay_bounds (baseDelayMs maxDelayMs : Z) (attempt : nat) (errorCount : Z)
    (jitter : Q) :
  0 <= errorCount -> (0 <= jitter)%Q -> (jitter <= 1000)%Q ->
  let factor := errorFactor errorCount in
  let low := inject_Z (baseDelayMs * 2 ^ Z.of_nat attempt) in
  (specDelay baseDelayMs maxDelayMs attempt errorCount jitter
   <= inject_Z maxDelayMs * factor)%Q
  /\ ((low + 1000 <= inject_Z maxDelayMs)%Q ->
      (low * factor <= specDelay baseDelayMs maxDelayMs attempt errorCount jitter)%Q
      /\ (specDelay baseDelayMs maxDelayMs attempt errorCount jitter
          <= (low + 1000) * factor)%Q).
Proof.
  intros Hn Hj0 Hj1 factor low.
  assert (Hf : (0 <= factor)%Q) by (apply Qlt_le_weak, errorFactor_pos, Hn).
  unfold specDelay. fold low. change (1 + inject_Z (Z.min errorCount 5) * (1 # 10))%Q
    with factor.
  split.
  - apply Qmult_le_compat_r; [apply Q.le_min_r | exact Hf].
  - intros Hcap. split; apply Qmult_le_compat_r; try exact Hf.
    + apply Q.min_glb.
      * rewrite <- (Qplus_0_r low) at 1. apply Qplus_le_r. exact Hj0.
      * apply Qle_trans with (low + 1000)%Q; [| exact Hcap].
        rewrite <- (Qplus_0_r low) at 1. apply Qplus_le_r. discriminate.
    + apply Qle_trans with (low + jitter)%Q; [apply Q.le_min_l |].
      apply Qplus_le_r. exact Hj1.
Qed.

(** C6, on the code: with [baseDelay: 100] configured and [Math.random()]
    giving one half, the delay waited after the first failed attempt is
    1500 ms, the value for a base of 1000; the specified formula for a base of
    100 stays at or below 1100 ms for every jitter in [0, 1000]. *)
Theorem getRetryDelay_ignores_baseDelay :
  let r := retryOperation newErrorHandler (alwaysFailing serverDown 0) shortBaseDelay in
  (exists delay, delays r = [delay] /\ (delay == 1500)%Q)
  /\ (forall jitter, (0 <= jitter)%Q -> (jitter <= 1000)%Q ->
        (specDelay 100 30000 0 0 jitter <= 1100)%Q).
Proof.
  cbv zeta. split.
  - eexists. split; [vm_compute; reflexivity | reflexivity].
  - intros jitter Hj0 Hj1.
    destruct (specDelay_bounds 100 30000 0 0 jitter ltac:(lia) Hj0 Hj1) as [_ Hin].
    destruct (Hin ltac:(discriminate)) as [_ Hup].
    eapply Qle_trans; [exact Hup |]. discriminate.
Qed.

(** ** Clearing the tracking state *)

Lemma filter_all {A : Type} (p : A -> bool) (l : list A) :
  (forall a, p a = true) -> filter p l = l.
Proof.
  intros Hp. induction l as [| a l IH]; simpl; [reflexivity |].
  now rewrite Hp, IH.
Qed.

Lemma filter_delete {V : Type} (p : string -> bool) (k : string) (m : Map.t V) :
  filter (fun kv => negb (p (fst kv))) (Map.delete k m)
  = filter (fun kv => negb (String.eqb k (fst kv) || p (fst kv))) m.
Proof.
  unfold Map.delete. induction m as [| kv m IH]; simpl; [reflexivity |].
  destruct (String.eqb k (fst kv)); simpl; [exact IH |].
  destruct (p (fst kv)); simpl; now rewrite IH.
Qed.

Lemma clearKey_fold (operation : string) (ks : list string) :
  forall h,
    let h' := fold_left (clearKey operation) ks h in
    errorCounts h'
    = filter (fun kv => negb (clearedIn operation ks (fst kv))) (errorCounts h)
    /\ lastErrors h'
       = filter (fun kv => negb (clearedIn operation ks (fst kv))) (lastErrors h)
    /\ rateLimits h' = rateLimits h.
Proof.
  induction ks as [| k ks IH]; intros h; simpl.
  - repeat split; symmetry; now apply filter_all.
  - specialize (IH (clearKey operation h k)). cbv zeta in IH.
    destruct IH as (Hec & Hle & Hrl). rewrite Hec, Hle, Hrl.
    unfold clearKey. destruct (Str.startsWith k operation) eqn:E; simpl.
    + rewrite !filter_delete. auto.
    + auto.
Qed.

Lemma clearedIn_keys {V : Type} (operation key : string) (m : Map.t V) :
  clearedIn operation (Map.keys m) key = Str.startsWith key operation && Map.has key m.
Proof.
  unfold clearedIn, Map.has. induction m as [| [k v] m IH]; simpl.
  - now rewrite andb_false_r.
  - rewrite IH. destruct (String.eqb k key) eqn:E.
    + apply String.eqb_eq in E. subst k. rewrite String.eqb_refl.
      destruct (Str.startsWith key operation); reflexivity.
    + rewrite andb_false_r. simpl.
      rewrite String.eqb_sym, E. reflexivity.
Qed.

(** What [clearErrors] does, for every state.  Without an argument, and with
    the empty string, it empties [errorCounts] and [lastErrors].  With a
    non-empty operation name it deletes from [errorCounts] exactly the entries
    whose key starts with the name, and from [lastErrors] the entries whose
    key starts with the name and is also a key of [errorCounts]: its loop
    visits the keys of [errorCounts] only.  The rate-limit windows are the
    same afterwards in every case. *)
Theorem clearErrors_effect (h : ErrorHandler) :
  clearErrors h None = mkHandler [] (rateLimits h) []
  /\ clearErrors h (Some "") = mkHandler [] (rateLimits h) []
  /\ forall (c : ascii) (s : string),
       let name := String c s in
       errorCounts (clearErrors h (Some name))
       = filter (fun kv => negb (Str.startsWith (fst kv) name)) (errorCounts h)
       /\ lastErrors (clearErrors h (Some name))
          = filter (fun kv => negb (Str.startsWith (fst kv) name
                                    && Map.has (fst kv) (errorCounts h)))
              (lastErrors h)
       /\ rateLimits (clearErrors h (Some name)) = rateLimits h.
Proof.
  split; [reflexivity |]. split; [reflexivity |]. intros c s name.
  change (clearErrors h (Some name))
    with (fold_left (clearKey name) (Map.keys (errorCounts h)) h).
  destruct (clearKey_fold name (Map.keys (errorCounts h)) h) as (Hec & Hle & Hrl).
  rewrite Hec, Hle, Hrl. repeat split.
  - apply filter_ext_in. intros [k v] Hin. simpl.
    rewrite clearedIn_keys.
    assert (Hhas : Map.has k (errorCounts h) = true).
    { apply has_true_in. unfold Map.keys. apply in_map_iff. now exists (k, v). }
    now rewrite Hhas, andb_true_r.
  - apply filter_ext. intros [k v]. simpl. now rewrite clearedIn_keys.
Qed.

(** C8, on the code: after a failure of [sync] recorded under [sync_general]
    and a successful call named [sync_general], the state holds one last-error
    entry, under a key that starts with "sync", and no tracking entry.
    [clearErrors("sync")] visits the keys of [errorCounts], finds none and
    leaves that last-error entry where it is; [clearErrors()] on the same
    state removes it. *)
Theorem clearErrors_misses_last_error :
  Map.keys (errorCounts afterNamesakeSuccess) = []
  /\ Map.keys (lastErrors afterNamesakeSuccess) = ["sync_general"]
  /\ Str.startsWith "sync_general" "sync" = true
  /\ clearErrors afterNamesakeSuccess (Some "sync") = afterNamesakeSuccess
  /\ Map.has "sync_general" (lastErrors (clearErrors afterNamesakeSuccess (Some "sync")))
     = true
  /\ lastErrors (clearErrors afterNamesakeSuccess None) = [].
Proof.
  repeat split; vm_compute; reflexivity.
Qed.

(** ** Statistics *)

Section SplitFacts.
Variable sep : ascii.

Lemma split_not_nil (s : string) : Str.split sep s <> [].
Proof.
  destruct s as [| c s]; simpl; [discriminate |].
  destruct (Ascii.eqb c sep); [discriminate |].
  destruct (Str.split sep s); discriminate.
Qed.

(** splitting at a separator splits the two sides *)
Lemma split_app (a b : string) :
  Str.split sep (a ++ String sep b) = (Str.split sep a ++ Str.split sep b)%list.
Proof.
  induction a as [| c a IH]; simpl.
  - now rewrite Ascii.eqb_refl.
  - destruct (Ascii.eqb c sep); [now rewrite IH |].
    rewrite IH. pose proof (split_not_nil a) as Hne.
    destruct (Str.split sep a); [contradiction | reflexivity].
Qed.

(** the first segment holds no separator *)
Lemma split_first_no_sep (s : string) :
  Str.mem sep (nth 0 (Str.split sep s) "") = false.
Proof.
  induction s as [| c s IH]; simpl; [reflexivity |].
  destruct (Ascii.eqb c sep) eqn:E; [reflexivity |].
  pose proof (split_not_nil s) as Hne.
  destruct (Str.split sep s) as [| seg segs]; [contradiction |].
  simpl in *. now rewrite E, IH.
Qed.

(** a string that holds a separator has two segments at least, and starts
    with its first segment followed by the separator *)
Lemma split_mem (s : string) :
  Str.mem sep s = true ->
  exists seg0 seg1 segs rest,
    Str.split sep s = seg0 :: seg1 :: segs /\ s = seg0 ++ String sep rest.
Proof.
  induction s as [| c s IH]; simpl; [discriminate |].
  destruct (Ascii.eqb c sep) eqn:E.
  - intros _. apply Ascii.eqb_eq in E. subst c.
    pose proof (split_not_nil s) as Hne.
    destruct (Str.split sep s) as [| seg segs]; [contradiction |].
    now exists "", seg, segs, s.
  - simpl. intros Hmem. destruct (IH Hmem) as (seg0 & seg1 & segs & rest & Hs & Heq).
    rewrite Hs. exists (String c seg0), seg1, segs, rest. split; [reflexivity |].
    simpl. now rewrite <- Heq.
Qed.
End SplitFacts.

Lemma mem_neq (c : ascii) (s s' : string) :
  Str.mem c s = true -> Str.mem c s' = false -> s <> s'.
Proof. intros H H' ->. congruence. Qed.

(** For an operation name that holds an underscore, the operation and type
    read back from a tracking key are segments of the name, whatever the
    classification appended to it. *)
Lemma key_segments_of_name (name class : string) :
  Str.mem "_" name = true ->
  keyOperation (name ++ "_" ++ class) = keyOperation name
  /\ keyType (name ++ "_" ++ class) = keyType name
  /\ (exists segment, keyType name = Some segment)
  /\ (exists rest, name = keyOperation name ++ "_" ++ rest)
  /\ keyOperation name <> name.
Proof.
  intros Hmem.
  destruct (split_mem "_" name Hmem) as (seg0 & seg1 & segs & rest & Hs & Heq).
  unfold keyOperation, keyType.
  change (name ++ "_" ++ class) with (name ++ String "_" class).
  rewrite split_app, Hs. simpl.
  repeat split; eauto.
  pose proof (split_first_no_sep "_" name) as Hfirst. rewrite Hs in Hfirst. simpl in Hfirst.
  apply not_eq_sym. eapply mem_neq; eassumption.
Qed.

(** adding under one name leaves the other names as they were *)
Lemma get_addTo_other (obj : Map.t Value) (k k' : string) (n : Z) :
  k <> k' -> Map.get k (addTo obj k' n) = Map.get k obj.
Proof.
  intros Hne. unfold addTo.
  destruct (Map.get k' obj) as [[m | text] |].
  - now apply get_set_other.
  - now apply get_set_other.
  - destruct (Obj.inherited k') as [member |]; [| now apply get_set_other].
    destruct (String.eqb k' "__proto__"); [reflexivity | now apply get_set_other].
Qed.

(** under a name that [Object.prototype] does not have, a count is added to
    the number on record *)
Lemma get_addTo_same (obj : Map.t Value) (k : string) (n before : Z) :
  Obj.inherited k = None -> numberAt obj k = Some before ->
  Map.get k (addTo obj k n) = Some (Number (before + n)).
Proof.
  intros Hown. unfold numberAt, addTo.
  destruct (Map.get k obj) as [[m | text] |]; intros Hbefore.
  - injection Hbefore as <-. apply get_set_same.
  - discriminate.
  - injection Hbefore as <-. rewrite Hown. apply get_set_same.
Qed.

Section Grouping.
Variable proj : string -> string.

Lemma total_none (k : string) (m : Map.t Tracking.t) : anyKey proj k m = false -> total proj k m = 0.
Proof.
  unfold anyKey. induction m as [| [key tracking] m IH]; simpl; [reflexivity |].
  destruct (String.eqb (proj key) k); simpl; [discriminate |]. auto.
Qed.

Lemma get_grouped_none (k : string) (m : Map.t Tracking.t) :
  anyKey proj k m = false ->
  forall obj, Map.get k (grouped proj m obj) = Map.get k obj.
Proof.
  unfold grouped, anyKey.
  induction m as [| [key tracking] m IH]; intros Hany obj; simpl; [reflexivity |].
  simpl in Hany. apply orb_false_iff in Hany. destruct Hany as (Hkey & Hany).
  rewrite (IH Hany). apply get_addTo_other.
  apply String.eqb_neq in Hkey. congruence.
Qed.

Lemma get_grouped (k : string) (m : Map.t Tracking.t) :
  Obj.inherited k = None ->
  forall obj before,
    numberAt obj k = Some before ->
    Map.get k (grouped proj m obj)
    = if anyKey proj k m then Some (Number (before + total proj k m))
      else Map.get k obj.
Proof.
  intros Hown. unfold grouped, anyKey.
  induction m as [| [key tracking] m IH]; intros obj before Hbefore; simpl;
    [reflexivity |].
  destruct (String.eqb (proj key) k) eqn:E; simpl.
  - apply String.eqb_eq in E. rewrite E.
    pose proof (get_addTo_same obj k (Tracking.count tracking) before Hown Hbefore)
      as Hadded.
    rewrite (IH _ (before + Tracking.count tracking)).
    + destruct (existsb _ m) eqn:Em.
      * do 2 f_equal. lia.
      * fold (anyKey proj k m) in Em. rewrite (total_none _ _ Em), Hadded.
        do 2 f_equal. lia.
    + unfold numberAt. now rewrite Hadded.
  - apply String.eqb_neq in E.
    assert (Hother : Map.get k (addTo obj (proj key) (Tracking.count tracking))
                     = Map.get k obj)
      by (apply get_addTo_other; congruence).
    rewrite (IH _ before).
    + now rewrite Hother.
    + unfold numberAt. now rewrite Hother.
Qed.

Lemma anyKey_set (k key : string) (tracking : Tracking.t) (m : Map.t Tracking.t) :
  anyKey proj k (Map.set key tracking m) = anyKey proj k m || String.eqb (proj key) k.
Proof.
  unfold anyKey. induction m as [| [k0 t0] m IH]; simpl.
  - now rewrite orb_false_r.
  - destruct (String.eqb key k0) eqn:E; simpl.
    + apply String.eqb_eq in E. subst k0.
      destruct (String.eqb (proj key) k); simpl; [reflexivity |]. now rewrite orb_false_r.
    + rewrite IH. now rewrite orb_assoc.
Qed.

Lemma total_set (k key : string) (tracking : Tracking.t) (m : Map.t Tracking.t) :
  total proj k (Map.set key tracking m)
  = total proj k m
    + (if String.eqb (proj key) k
       then Tracking.count tracking
            - match Map.get key m with Some old => Tracking.count old | None => 0 end
       else 0).
Proof.
  induction m as [| [k0 t0] m IH]; simpl.
  - destruct (String.eqb (proj key) k); lia.
  - destruct (String.eqb key k0) eqn:E; simpl.
    + apply String.eqb_eq in E. subst k0.
      destruct (String.eqb (proj key) k); lia.
    + rewrite IH. lia.
Qed.

(** recording one more failure under [key] adds one to the group of [key],
    when the group's name is not one that [Object.prototype] has *)
Lemma get_grouped_trackError (h : ErrorHandler) (operation : string) (error : JsError)
    (now : Z) :
  let k := proj (trackingKey operation error) in
  Obj.inherited k = None ->
  exists counted,
    numberAt (grouped proj (errorCounts h) []) k = Some counted
    /\ Map.get k (grouped proj (errorCounts (snd (trackError h operation error now))) [])
       = Some (Number (counted + 1)).
Proof.
  intros k Hown. exists (total proj k (errorCounts h)). split.
  - unfold numberAt. rewrite (get_grouped k _ Hown [] 0 eq_refl).
    destruct (anyKey proj k (errorCounts h)) eqn:Eany; [reflexivity |].
    now rewrite (total_none _ _ Eany).
  - unfold trackError. cbn [snd errorCounts].
    rewrite (get_grouped k _ Hown [] 0 eq_refl), anyKey_set, total_set. subst k.
    rewrite String.eqb_refl, orb_true_r. cbn [Tracking.count].
    do 2 f_equal.
    destruct (Map.get (trackingKey operation error) (errorCounts h)); simpl; lia.
Qed.
End Grouping.

Lemma recentEntry_fold_counts (oneHourAgo : Z) (entries : Map.t LastError.t) :
  forall stats,
    let stats' := fold_left (recentEntry oneHourAgo) entries stats in
    totalErrors stats' = totalErrors stats
    /\ errorsByType stats' = errorsByType stats
    /\ errorsByOperation stats' = errorsByOperation stats.
Proof.
  induction entries as [| [key errorInfo] entries IH]; intros stats; cbn [fold_left];
    [auto |].
  destruct (IH (recentEntry oneHourAgo stats (key, errorInfo))) as (H1 & H2 & H3).
  rewrite H1, H2, H3. unfold recentEntry.
  destruct (oneHourAgo <? LastError.timestamp errorInfo); auto.
Qed.

Lemma countEntry_fold_groups (entries : Map.t Tracking.t) :
  forall stats,
    let stats' := fold_left countEntry entries stats in
    errorsByOperation stats' = grouped keyOperation entries (errorsByOperation stats)
    /\ errorsByType stats'
       = grouped (fun key => propertyName (keyType key)) entries (errorsByType stats).
Proof.
  induction entries as [| [key tracking] entries IH]; intros stats; cbn [fold_left];
    [auto |].
  destruct (IH (countEntry stats (key, tracking))) as (H1 & H2).
  rewrite H1, H2. auto.
Qed.

Lemma getErrorStats_groups (h : ErrorHandler) (now : Z) :
  errorsByOperation (getErrorStats h now) = grouped keyOperation (errorCounts h) []
  /\ errorsByType (getErrorStats h now)
     = grouped (fun key => propertyName (keyType key)) (errorCounts h) [].
Proof.
  unfold getErrorStats.
  destruct (recentEntry_fold_counts (now - 3600000) (lastErrors h)
              (fold_left countEntry (errorCounts h) (mkStats 0 Map.empty Map.empty [])))
    as (_ & Ht & Ho).
  rewrite Ht, Ho.
  destruct (countEntry_fold_groups (errorCounts h) (mkStats 0 Map.empty Map.empty []))
    as (Ho' & Ht').
  now rewrite Ho', Ht'.
Qed.

Lemma anyKey_keyOperation_underscore (name : string) (m : Map.t Tracking.t) :
  Str.mem "_" name = true -> anyKey keyOperation name m = false.
Proof.
  intros Hmem. unfold anyKey. induction m as [| [key tracking] m IH]; simpl; [reflexivity |].
  rewrite IH, orb_false_r. apply String.eqb_neq.
  apply not_eq_sym. eapply mem_neq; [exact Hmem |]. apply split_first_no_sep.
Qed.

(** C10 (as amended).  [getErrorStats] reads the operation and the type of an
    entry back from its key as the first two underscore-separated segments.
    For an operation name that itself holds an underscore, one more failure
    recorded for it, of whatever classification, is therefore counted in
    [errorsByOperation] under the part of the name before its first underscore
    (never under the name) and in [errorsByType] under the second segment of
    the name, which is the true classification only when that segment happens
    to spell it.  The count goes up by one under a segment that is not the
    name of a member of [Object.prototype]. *)
Theorem getErrorStats_underscore_names (h : ErrorHandler) (name : string)
    (error : JsError) (now now' : Z) :
  Str.mem "_" name = true ->
  let key := trackingKey name error in
  let shownOperation := keyOperation name in
  let shownType := propertyName (keyType name) in
  let before := getErrorStats h now' in
  let after := getErrorStats (snd (trackError h name error now)) now' in
  keyOperation key = shownOperation
  /\ propertyName (keyType key) = shownType
  /\ (exists rest, name = shownOperation ++ "_" ++ rest)
  /\ (exists segment, keyType name = Some segment)
  /\ (Obj.inherited shownOperation = None ->
      exists counted,
        numberAt (errorsByOperation before) shownOperation = Some counted
        /\ Map.get shownOperation (errorsByOperation after) = Some (Number (counted + 1)))
  /\ (Obj.inherited shownType = None ->
      exists counted,
        numberAt (errorsByType before) shownType = Some counted
        /\ Map.get shownType (errorsByType after) = Some (Number (counted + 1)))
  /\ Map.get name (errorsByOperation after) = None.
Proof.
  intros Hmem key shownOperation shownType before after.
  destruct (key_segments_of_name name
              match type error with
              | Some "" | None => "general"
              | Some t => t
              end Hmem) as (Hop & Hty & Hseg & Hrest & _).
  fold (trackingKey name error) in Hop, Hty. fold key in Hop, Hty.
  fold shownOperation in Hop, Hrest.
  assert (Hty' : propertyName (keyType key) = shownType)
    by (subst shownType; now rewrite Hty).
  destruct (getErrorStats_groups h now') as (Hbo & Hbt).
  destruct (getErrorStats_groups (snd (trackError h name error now)) now') as (Hao & Hat).
  subst before after. rewrite Hao, Hat, Hbo, Hbt.
  repeat split; try assumption.
  - intros Hown. rewrite <- Hop in Hown |- *.
    apply (get_grouped_trackError keyOperation h name error now Hown).
  - intros Hown. rewrite <- Hty' in Hown |- *.
    apply (get_grouped_trackError (fun key => propertyName (keyType key))
             h name error now Hown).
  - apply (get_grouped_none keyOperation).
    now apply anyKey_keyOperation_underscore.
Qed.

(** the name the OAuth login gives its call *)
Lemma getErrorStats_underscore_names_witness :
  let h := snd (trackError newErrorHandler "oauth_token_exchange"
                  (mkError (Some "network") None None) 0) in
  Map.get "oauth" (errorsByOperation (getErrorStats h 0)) = Some (Number 1)
  /\ Map.get "token" (errorsByType (getErrorStats h 0)) = Some (Number 1)
  /\ Map.get "oauth_token_exchange" (errorsByOperation (getErrorStats h 0)) = None.
Proof.
  cbv zeta.
  destruct (getErrorStats_underscore_names newErrorHandler "oauth_token_exchange"
              (mkError (Some "network") None None) 0 0 eq_refl)
    as (_ & _ & _ & _ & Hop & Hty & Hname).
  destruct (Hop eq_refl) as (byOperation & Hbefore & Hafter).
  destruct (Hty eq_refl) as (byType & Hbefore' & Hafter').
  injection Hbefore as <-. injection Hbefore' as <-.
  split; [exact Hafter | split; [exact Hafter' | exact Hname]].
Defined.

(** C10, the claim as stated fails: the operation name [check_network] holds
    an underscore, its failure is classified [network], and [errorsByType]
    counts it under [network], the true classification (the operation is
    still truncated to [check]). *)
Lemma getErrorStats_true_class_counterexample :
  let r := retryOperation newErrorHandler (alwaysFailing networkDown 0)
             (noRetry "check_network") in
  let stats := getErrorStats (handler r) 0 in
  Str.mem "_" "check_network" = true
  /\ getErrorType networkDown = "network"
  /\ Map.keys (errorCounts (handler r)) = ["check_network_network"]
  /\ errorsByType stats = [("network", Number 1)]
  /\ errorsByOperation stats = [("check", Number 1)].
Proof.
  cbv zeta. repeat split; vm_compute; reflexivity.
Qed.

(** ** Invariants of the reachable states *)

Lemma keys_delete {V : Type} (k : string) (m : Map.t V) :
  Map.keys (Map.delete k m) = filter (fun k' => negb (String.eqb k k')) (Map.keys m).
Proof.
  unfold Map.delete, Map.keys. induction m as [| [k' v] m IH]; simpl; [reflexivity |].
  destruct (String.eqb k k'); simpl; now rewrite IH.
Qed.

Lemma uniqueKeys_filter {V : Type} (p : string * V -> bool) (m : Map.t V) :
  uniqueKeys m -> uniqueKeys (filter p m).
Proof.
  unfold uniqueKeys, Map.keys. induction m as [| [k v] m IH]; simpl; [auto |].
  intros Hm. inversion Hm as [| ? ? Hnotin Hm']; subst.
  destruct (p (k, v)); simpl; [| auto].
  constructor; [| auto]. intros Hin. apply Hnotin.
  apply in_map_iff in Hin. destruct Hin as ([k' v'] & Heq & Hin). simpl in Heq. subst k'.
  apply filter_In in Hin. apply in_map_iff. exists (k, v'). tauto.
Qed.

Lemma uniqueKeys_delete {V : Type} (k : string) (m : Map.t V) :
  uniqueKeys m -> uniqueKeys (Map.delete k m).
Proof. apply uniqueKeys_filter. Qed.

Lemma keys_filter_incl {V : Type} (p : string * V -> bool) (m : Map.t V) (k : string) :
  In k (Map.keys (filter p m)) -> In k (Map.keys m).
Proof.
  unfold Map.keys. rewrite !in_map_iff. intros (kv & Heq & Hin).
  apply filter_In in Hin. exists kv. tauto.
Qed.

Lemma mem_app_sep (c : ascii) (a b : string) : Str.mem c (a ++ String c b) = true.
Proof.
  induction a as [| c' a IH]; simpl.
  - now rewrite Ascii.eqb_refl.
  - rewrite IH. apply orb_true_r.
Qed.

Lemma mem_trackingKey (operation : string) (error : JsError) :
  Str.mem "_" (trackingKey operation error) = true.
Proof. apply mem_app_sep. Qed.

Lemma wellFormed_withErrorCounts_filter (h : ErrorHandler)
    (p : string * Tracking.t -> bool) :
  wellFormed h -> wellFormed (withErrorCounts h (filter p (errorCounts h))).
Proof.
  intros (Hec & Hrl & Hle & Hck). repeat split; simpl; try assumption.
  - now apply uniqueKeys_filter.
  - unfold compositeKeys in *. simpl. rewrite Forall_forall in *.
    intros k Hin. apply Hck. eapply keys_filter_incl. exact Hin.
Qed.

Lemma wellFormed_trackError (h : ErrorHandler) operation error now :
  wellFormed h -> wellFormed (snd (trackError h operation error now)).
Proof.
  intros (Hec & Hrl & Hle & Hck). unfold trackError. cbn [snd].
  repeat split; simpl; try assumption; try now apply uniqueKeys_set.
  unfold compositeKeys in *. simpl. rewrite keys_set.
  destruct (Map.has _ (errorCounts h)); [assumption |].
  apply Forall_app. split; [assumption |].
  constructor; [apply mem_trackingKey | constructor].
Qed.

Lemma wellFormed_applyRateLimit (h : ErrorHandler) operation windowMs maxRequests now :
  wellFormed h -> wellFormed (snd (applyRateLimit h operation windowMs maxRequests now)).
Proof.
  intros Hwf. pose proof (applyRateLimit_uniqueKeys h operation windowMs maxRequests now
                            (proj1 (proj2 Hwf))) as Hrl.
  destruct Hwf as (Hec & _ & Hle & Hck).
  revert Hrl. unfold applyRateLimit.
  destruct (Map.get operation (rateLimits h)) as [limit |]; simpl.
  - destruct (Limit.resetTime limit <=? now); simpl; [now repeat split |].
    destruct (Limit.maxRequests limit <=? Limit.count limit); simpl; now repeat split.
  - now repeat split.
Qed.

Lemma wellFormed_circuitBreaker (h h' : ErrorHandler) key threshold timeout now :
  wellFormed h -> circuitBreaker h key threshold timeout now = inr h' -> wellFormed h'.
Proof.
  intros Hwf. unfold circuitBreaker.
  destruct (Map.get key (errorCounts h)) as [tracking |]; [| now intros [= <-]].
  destruct (threshold <=? Tracking.count tracking); [| now intros [= <-]].
  destruct (now - Tracking.lastError tracking <? timeout); [discriminate |].
  intros [= <-]. now apply wellFormed_withErrorCounts_filter.
Qed.

Lemma wellFormed_attempts {R : Type} (w : World R) key maxRetries maxDelay remaining :
  forall attempt lastError h slept,
    wellFormed h ->
    wellFormed
      (handler (attempts w key maxRetries maxDelay remaining attempt lastError h slept)).
Proof.
  induction remaining as [| remaining IH]; intros attempt lastError h slept Hwf; simpl;
    [assumption |].
  destruct (operation w attempt) as [error | result]; simpl.
  - pose proof (wellFormed_trackError h key
                  (mkError (Some (getErrorType error)) (message error) (status error))
                  (nowTrack w attempt) Hwf) as Hwf'.
    destruct (shouldNotRetry error); simpl; [assumption |].
    destruct (attempt =? maxRetries)%nat; simpl; [assumption |].
    now apply IH.
  - now apply wellFormed_withErrorCounts_filter.
Qed.

Lemma wellFormed_retryOperation {R : Type} (h : ErrorHandler) (w : World R) options :
  wellFormed h -> wellFormed (handler (retryOperation h w options)).
Proof.
  intros Hwf. unfold retryOperation.
  destruct (circuitBreaker h _ _ _ _) as [raised | h'] eqn:Ecb; [exact Hwf |].
  pose proof (wellFormed_circuitBreaker _ _ _ _ _ _ Hwf Ecb) as Hwf'.
  destruct (rateLimitCheck h' _ _); [exact Hwf' |].
  now apply wellFormed_attempts.
Qed.

Lemma wellFormed_clearErrors (h : ErrorHandler) operation :
  wellFormed h -> wellFormed (clearErrors h operation).
Proof.
  intros Hwf.
  assert (Hall : wellFormed (mkHandler [] (rateLimits h) [])).
  { destruct Hwf as (_ & Hrl & _ & _). repeat split; simpl; try assumption; constructor. }
  destruct operation as [[| c s] |]; [exact Hall | | exact Hall].
  change (clearErrors h (Some (String c s)))
    with (fold_left (clearKey (String c s)) (Map.keys (errorCounts h)) h).
  destruct (clearKey_fold (String c s) (Map.keys (errorCounts h)) h) as (Hec & Hle & Hrl).
  destruct Hwf as (Uec & Url & Ule & Hck).
  repeat split.
  - rewrite Hec. now apply uniqueKeys_filter.
  - now rewrite Hrl.
  - rewrite Hle. now apply uniqueKeys_filter.
  - unfold compositeKeys in *. rewrite Hec. rewrite Forall_forall in *.
    intros k Hin. apply Hck. eapply keys_filter_incl. exact Hin.
Qed.

Lemma Reachable_invariant (h : ErrorHandler) : Reachable h -> wellFormed h.
Proof.
  induction 1.
  - repeat split; constructor.
  - now apply wellFormed_trackError.
  - now apply wellFormed_applyRateLimit.
  - now apply wellFormed_retryOperation.
  - now apply wellFormed_clearErrors.
Qed.

(** Every reachable state holds each key once in each of its maps, and every
    key of [errorCounts] is a composite key built by [trackError]. *)
Theorem reachable_wellFormed (h : ErrorHandler) : Reachable h -> wellFormed h.
Proof. apply Reachable_invariant. Qed.

Lemma reachable_wellFormed_witness : wellFormed eightFailures.
Proof.
  apply (reachable_wellFormed eightFailures).
  unfold eightFailures. apply reach_retryOperation, reach_retryOperation, reach_new.
Defined.

(** The circuit-breaker check reads [errorCounts] under the plain operation
    name.  In a reachable state no such entry exists for a name without an
    underscore, so the check never refuses the call, however many failures
    were recorded. *)
Theorem circuitBreaker_never_opens (h : ErrorHandler) (options : Options) (now : Z) :
  Reachable h ->
  Str.mem "_" (orDefault "unknown" (operationName options)) = false ->
  circuitOpen h options now = false.
Proof.
  intros Hreach Hname. destruct (Reachable_invariant h Hreach) as (_ & _ & _ & Hck).
  unfold circuitOpen, circuitBreaker.
  destruct (Map.get _ (errorCounts h)) eqn:Hget; [| reflexivity].
  exfalso. unfold compositeKeys in Hck. rewrite Forall_forall in Hck.
  assert (Hin : In (orDefault "unknown" (operationName options)) (Map.keys (errorCounts h))).
  { apply has_true_in. unfold Map.has. now rewrite Hget. }
  apply Hck in Hin. congruence.
Qed.

Lemma circuitBreaker_never_opens_witness :
  circuitOpen eightFailures (threeRetries "fetchUser") 200 = false.
Proof.
  apply (circuitBreaker_never_opens eightFailures (threeRetries "fetchUser") 200).
  - unfold eightFailures. apply reach_retryOperation, reach_retryOperation, reach_new.
  - reflexivity.
Defined.

(** ** Further properties of the executor *)

(** One call never invokes the operation more than [maxRetries + 1] times. *)
Theorem retryOperation_invocations_le {R : Type} (h : ErrorHandler) (w : World R)
    (options : Options) :
  (invocations (retryOperation h w options) <= S (orDefault 3 (maxRetries options)))%nat.
Proof.
  unfold retryOperation.
  destruct (circuitBreaker h _ _ _ _) as [raised | h']; [simpl; lia |].
  destruct (rateLimitCheck h' _ _); [simpl; lia |].
  apply (attempts_invocations_le w _ _ _ (S _) 0%nat).
Qed.

(** A first failure classified [permission] or [not_found] ends a call that
    got past the entry checks: one invocation, and that error is thrown. *)
Theorem retryOperation_single_attempt {R : Type} (h : ErrorHandler) (w : World R)
    (options : Options) (e : JsError) :
  circuitOpen h options (nowCircuit w) = false ->
  isRateLimited h (orDefault "unknown" (operationName options)) (nowRateLimit w) = false ->
  operation w 0%nat = inl e ->
  getErrorType e = "permission" \/ getErrorType e = "not_found" ->
  invocations (retryOperation h w options) = 1%nat
  /\ outcome (retryOperation h w options) = inl (Thrown (Some e)).
Proof. apply permission_not_found_single_attempt. Qed.

Lemma retryOperation_single_attempt_witness :
  invocations (retryOperation newErrorHandler (alwaysFailing notFound 0)
                 (threeRetries "updateNote")) = 1%nat
  /\ outcome (retryOperation newErrorHandler (alwaysFailing notFound 0)
                (threeRetries "updateNote")) = inl (Thrown (Some notFound)).
Proof.
  apply (retryOperation_single_attempt newErrorHandler (alwaysFailing notFound 0)
           (threeRetries "updateNote") notFound);
    [reflexivity | reflexivity | reflexivity | right; reflexivity].
Defined.

(** The delay computed by [getRetryDelay] for a jitter draw in [0, 1) and a
    non-negative error count never exceeds the scaled cap, and while
    [1000 * 2^attempt + 1000] stays within the cap it lies in the scaled
    interval from [1000 * 2^attempt] to [1000 * 2^attempt + 1000]. *)
Theorem getRetryDelay_bounds (h : ErrorHandler) (operation : string) (attempt : nat)
    (maxDelay : Z) (random : Q) :
  (0 <= random)%Q -> (random < 1)%Q -> 0 <= errorCountFor h operation ->
  let factor := errorFactor (errorCountFor h operation) in
  let low := inject_Z (1000 * 2 ^ Z.of_nat attempt) in
  let delay := getRetryDelay h operation attempt (Some maxDelay) random in
  (delay <= inject_Z maxDelay * factor)%Q
  /\ ((low + 1000 <= inject_Z maxDelay)%Q ->
      (low * factor <= delay)%Q /\ (delay <= (low + 1000) * factor)%Q).
Proof.
  intros Hr0 Hr1 Hcount factor low delay. subst delay.
  rewrite getRetryDelay_base_1000.
  apply specDelay_bounds; [assumption | |].
  - apply Qmult_le_0_compat; [assumption | discriminate].
  - setoid_replace (1000 : Q) with (1 * 1000)%Q at 2 by reflexivity.
    apply Qmult_le_compat_r; [now apply Qlt_le_weak | discriminate].
Qed.

Lemma getRetryDelay_bounds_witness :
  (getRetryDelay newErrorHandler "fetchUser" 2%nat (Some 30000%Z) (1 # 4)
   <= inject_Z 30000 * errorFactor 0%Z)%Q.
Proof.
  apply (proj1 (getRetryDelay_bounds newErrorHandler "fetchUser" 2 30000 (1 # 4)
                  ltac:(discriminate) ltac:(reflexivity) ltac:(discriminate))).
Defined.

Lemma countEntry_fold_totals (entries : Map.t Tracking.t) :
  forall stats,
    let stats' := fold_left countEntry entries stats in
    totalErrors stats' = totalErrors stats + sumCounts entries
    /\ recentErrors stats' = recentErrors stats.
Proof.
  induction entries as [| [key tracking] entries IH]; intros stats; cbn [fold_left];
    [simpl; split; [lia | reflexivity] |].
  destruct (IH (countEntry stats (key, tracking))) as (H1 & H2).
  rewrite H1, H2. simpl. split; [lia | reflexivity].
Qed.

Lemma recentEntry_fold_recent (now : Z) (entries : Map.t LastError.t) :
  forall stats,
    recentErrors (fold_left (recentEntry (now - 3600000)) entries stats)
    = (recentErrors stats ++ map toRecent (filter (isRecent now) entries))%list.
Proof.
  induction entries as [| [key errorInfo] entries IH]; intros stats; cbn [fold_left].
  - simpl. now rewrite app_nil_r.
  - rewrite IH. unfold recentEntry, isRecent. simpl.
    destruct (now - 3600000 <? LastError.timestamp errorInfo); simpl; [| reflexivity].
    now rewrite <- app_assoc.
Qed.

(** [getErrorStats] counts every recorded failure in [totalErrors], whatever
    its age, and lists in [recentErrors] exactly the last errors stamped within
    the hour before the call, in the order of [lastErrors]. *)
Theorem getErrorStats_total_and_recent (h : ErrorHandler) (now : Z) :
  totalErrors (getErrorStats h now) = sumCounts (errorCounts h)
  /\ recentErrors (getErrorStats h now)
     = map toRecent (filter (isRecent now) (lastErrors h))
  /\ forall recent, In recent (recentErrors (getErrorStats h now)) ->
                    now - 3600000 < RecentError.timestamp recent.
Proof.
  assert (Hrecent : recentErrors (getErrorStats h now)
                    = map toRecent (filter (isRecent now) (lastErrors h))).
  { unfold getErrorStats. rewrite recentEntry_fold_recent.
    destruct (countEntry_fold_totals (errorCounts h) (mkStats 0 Map.empty Map.empty []))
      as (_ & Hr). now rewrite Hr. }
  split; [| split; [exact Hrecent |]].
  - unfold getErrorStats.
    destruct (recentEntry_fold_counts (now - 3600000) (lastErrors h)
                (fold_left countEntry (errorCounts h) (mkStats 0 Map.empty Map.empty [])))
      as (Ht & _). rewrite Ht.
    destruct (countEntry_fold_totals (errorCounts h) (mkStats 0 Map.empty Map.empty []))
      as (Hc & _). now rewrite Hc.
  - intros recent Hin. rewrite Hrecent in Hin. apply in_map_iff in Hin.
    destruct Hin as (entry & <- & Hin). apply filter_In in Hin.
    destruct Hin as (_ & Hnew). unfold isRecent in Hnew. simpl. now apply Z.ltb_lt.
Qed.

(** The friendly message depends on the classification only. *)
Theorem getUserFriendlyMessage_by_class (e e' : JsError) :
  getErrorType e = getErrorType e' ->
  getUserFriendlyMessage e = getUserFriendlyMessage e'.
Proof. unfold getUserFriendlyMessage. now intros ->. Qed.

Lemma getUserFriendlyMessage_by_class_witness :
  getUserFriendlyMessage badCredentials
  = getUserFriendlyMessage (mkError None (Some "authentication required") None).
Proof.
  apply (getUserFriendlyMessage_by_class badCredentials
           (mkError None (Some "authentication required") None)).
  reflexivity.
Defined.

(** ** Recording failures *)

(** [trackError] stores what it returns: the entry of the key counts one more
    failure than before (one, for a new key), keeps the time of the first
    failure and takes the current time as that of the last; the last-error
    entry of the key holds the error, the time and the same count; no other
    key of either map changes, and no rate-limit window does. *)
Theorem trackError_effect (h : ErrorHandler) (operation : string) (error : JsError)
    (now : Z) :
  let key := trackingKey operation error in
  let previous := Map.get key (errorCounts h) in
  let tracking := fst (trackError h operation error now) in
  let h' := snd (trackError h operation error now) in
  Map.get key (errorCounts h') = Some tracking
  /\ Tracking.count tracking
     = match previous with Some p => Tracking.count p + 1 | None => 1 end
  /\ Tracking.firstError tracking
     = match previous with Some p => Tracking.firstError p | None => now end
  /\ Tracking.lastError tracking = now
  /\ Map.get key (lastErrors h') = Some (LastError.mk error now (Tracking.count tracking))
  /\ (forall k, k <> key ->
        Map.get k (errorCounts h') = Map.get k (errorCounts h)
        /\ Map.get k (lastErrors h') = Map.get k (lastErrors h))
  /\ rateLimits h' = rateLimits h.
Proof.
  intros key previous tracking h'. subst tracking h' previous. unfold trackError.
  fold key. cbn [fst snd errorCounts lastErrors rateLimits].
  split; [apply get_set_same |].
  split; [destruct (Map.get key (errorCounts h)); reflexivity |].
  split; [destruct (Map.get key (errorCounts h)); reflexivity |].
  split; [reflexivity |].
  split; [apply get_set_same |].
  split; [| reflexivity].
  intros k Hk. split; now apply get_set_other.
Qed.

Lemma trackErrors_snoc (h : ErrorHandler) operation error (times : list Z) (now : Z) :
  trackErrors h operation error (times ++ [now])
  = snd (trackError (trackErrors h operation error times) operation error now).
Proof. unfold trackErrors. now rewrite fold_left_app. Qed.

(** Failures of one kind recorded one after the other for a key that had no
    entry add up: the count is their number, the first-failure time is that
    of the first one and the last-failure time that of the last one. *)
Theorem trackErrors_count (h : ErrorHandler) (operation : string) (error : JsError)
    (first : Z) (later : list Z) :
  Map.get (trackingKey operation error) (errorCounts h) = None ->
  Map.get (trackingKey operation error)
    (errorCounts (trackErrors h operation error (first :: later)))
  = Some (Tracking.mk (Z.of_nat (S (length later))) first (last later first)).
Proof.
  intros Hnew. induction later as [| now later IH] using rev_ind.
  - unfold trackErrors, trackError. simpl. rewrite Hnew. apply get_set_same.
  - rewrite app_comm_cons, trackErrors_snoc.
    unfold trackError at 1. cbn [snd errorCounts]. rewrite IH, get_set_same.
    rewrite last_last, length_app. simpl length. cbn [Tracking.count Tracking.firstError].
    do 2 f_equal. lia.
Qed.

Lemma trackErrors_count_witness :
  Map.get "fetchUser_server"
    (errorCounts (trackErrors newErrorHandler "fetchUser"
                    (mkError (Some "server") None (Some 503)) [10; 20; 30]))
  = Some (Tracking.mk 3 10 30).
Proof.
  apply (trackErrors_count newErrorHandler "fetchUser"
           (mkError (Some "server") None (Some 503)) 10 [20; 30]).
  reflexivity.
Defined.

(** ** Consistency of the statistics *)

Lemma sumValues_set (obj : Map.t Value) (k : string) (x sum : Z) :
  sumValues obj = Some sum ->
  exists before,
    numberAt obj k = Some before
    /\ sumValues (Map.set k (Number x) obj) = Some (sum + x - before).
Proof.
  unfold numberAt. revert sum.
  induction obj as [| [k' [m | text]] obj IH]; intros sum Hsum; simpl in *.
  - injection Hsum as <-. exists 0. split; [reflexivity | f_equal; lia].
  - destruct (sumValues obj) as [rest |] eqn:Hrest; [| discriminate].
    injection Hsum as <-.
    destruct (String.eqb k k') eqn:E; simpl.
    + exists m. rewrite Hrest. simpl. split; [reflexivity | f_equal; lia].
    + destruct (IH rest eq_refl) as (before & Hbefore & Hset).
      exists before. rewrite Hset. simpl. split; [exact Hbefore | f_equal; lia].
  - discriminate.
Qed.

Lemma sumValues_addTo (obj : Map.t Value) (k : string) (n sum : Z) :
  Obj.inherited k = None -> sumValues obj = Some sum ->
  sumValues (addTo obj k n) = Some (sum + n).
Proof.
  intros Hown Hsum. unfold addTo.
  destruct (Map.get k obj) as [[m | text] |] eqn:Hget.
  - destruct (sumValues_set obj k (m + n) sum Hsum) as (before & Hbefore & Hset).
    unfold numberAt in Hbefore. rewrite Hget in Hbefore. injection Hbefore as <-.
    rewrite Hset. f_equal. lia.
  - destruct (sumValues_set obj k 0 sum Hsum) as (before & Hbefore & _).
    unfold numberAt in Hbefore. rewrite Hget in Hbefore. discriminate.
  - rewrite Hown.
    destruct (sumValues_set obj k n sum Hsum) as (before & Hbefore & Hset).
    unfold numberAt in Hbefore. rewrite Hget in Hbefore. injection Hbefore as <-.
    rewrite Hset. f_equal. lia.
Qed.

Lemma sumValues_grouped (proj : string -> string) (m : Map.t Tracking.t) :
  Forall (fun entry => Obj.inherited (proj (fst entry)) = None) m ->
  forall obj sum,
    sumValues obj = Some sum ->
    sumValues (grouped proj m obj) = Some (sum + sumCounts m).
Proof.
  unfold grouped. induction 1 as [| [key tracking] m Hown _ IH]; intros obj sum Hsum;
    simpl.
  - rewrite Hsum. f_equal. lia.
  - rewrite (IH _ (sum + Tracking.count tracking)).
    + unfold sumCounts. simpl. f_equal. lia.
    + now apply sumValues_addTo.
Qed.

(** The three totals of [getErrorStats] agree: when no tracking key has a
    first or second segment naming a member of [Object.prototype], every
    value of [errorsByType] and of [errorsByOperation] is a number, and both
    groups add up to [totalErrors], however the keys split. *)
Theorem getErrorStats_groups_add_up (h : ErrorHandler) (now : Z) :
  ownNames h ->
  sumValues (errorsByType (getErrorStats h now)) = Some (totalErrors (getErrorStats h now))
  /\ sumValues (errorsByOperation (getErrorStats h now))
     = Some (totalErrors (getErrorStats h now)).
Proof.
  intros Hown.
  destruct (getErrorStats_groups h now) as (Ho & Ht). rewrite Ho, Ht.
  assert (Htotal : totalErrors (getErrorStats h now) = sumCounts (errorCounts h)).
  { unfold getErrorStats.
    destruct (recentEntry_fold_counts (now - 3600000) (lastErrors h)
                (fold_left countEntry (errorCounts h) (mkStats 0 Map.empty Map.empty [])))
      as (Hr & _). rewrite Hr.
    destruct (countEntry_fold_totals (errorCounts h) (mkStats 0 Map.empty Map.empty []))
      as (Hc & _). now rewrite Hc. }
  rewrite Htotal. unfold ownNames in Hown. split.
  - refine (sumValues_grouped (fun key => propertyName (keyType key)) (errorCounts h)
              _ [] 0 eq_refl).
    eapply Forall_impl; [| exact Hown]. intros entry (_ & Htype). exact Htype.
  - refine (sumValues_grouped keyOperation (errorCounts h) _ [] 0 eq_refl).
    eapply Forall_impl; [| exact Hown]. intros entry (Hoperation & _). exact Hoperation.
Qed.

(** eight failures of [fetchUser], all of one class *)
Lemma getErrorStats_groups_add_up_witness :
  sumValues (errorsByType (getErrorStats eightFailures 0))
  = Some (totalErrors (getErrorStats eightFailures 0))
  /\ sumValues (errorsByOperation (getErrorStats eightFailures 0))
     = Some (totalErrors (getErrorStats eightFailures 0)).
Proof.
  apply (getErrorStats_groups_add_up eightFailures 0).
  unfold ownNames. vm_compute. repeat constructor.
Defined.

(** ** The rate-limit status *)

(** What [status[name]] is, for the object [getRateLimitStatus] returns and
    any name.  It is a status made by the loop exactly when a window is
    tracked for the name; its [timeUntilReset] is then never negative and is
    positive exactly while [isRateLimited] answers true, and [isLimited]
    implies [isRateLimited] (the converse fails, as the count may be below
    the maximum).  It is anything else only for a name without a window, for
    which [isRateLimited] answers false; and it is then something other than
    [undefined] only for the name of a member of [Object.prototype], or when
    a window is tracked under [__proto__]. *)
Theorem getRateLimitStatus_agrees (h : ErrorHandler) (name : string) (now : Z) :
  uniqueKeys (rateLimits h) ->
  match StatusObject.read (getRateLimitStatus h now) name with
  | StatusObject.Entry status =>
      Map.has name (rateLimits h) = true
      /\ 0 <= LimitStatus.timeUntilReset status
      /\ (0 < LimitStatus.timeUntilReset status <-> isRateLimited h name now = true)
      /\ (LimitStatus.isLimited status = true -> isRateLimited h name now = true)
  | StatusObject.Undefined =>
      Map.get name (rateLimits h) = None /\ isRateLimited h name now = false
  | StatusObject.NumberField _ | StatusObject.BooleanField _ | StatusObject.Member _ =>
      Map.get name (rateLimits h) = None /\ isRateLimited h name now = false
      /\ (Obj.inherited name <> None \/ Map.has "__proto__" (rateLimits h) = true)
  end.
Proof.
  intros Huniq. rewrite (getRateLimitStatus_read h now name Huniq).
  unfold isRateLimited, Map.has.
  destruct (Map.get name (rateLimits h)) as [limit |]; simpl.
  - split; [reflexivity |]. split; [lia |]. split.
    + rewrite Z.ltb_lt. lia.
    + intros Hlim. apply andb_true_iff in Hlim. tauto.
  - assert (Hmember : match StatusObject.member name with
                      | StatusObject.Entry _ => False
                      | StatusObject.Undefined => True
                      | _ => Obj.inherited name <> None
                      end).
    { unfold StatusObject.member. destruct (Obj.inherited name); [discriminate | exact I]. }
    destruct (Map.get "__proto__" (rateLimits h)) as [limit |].
    + unfold StatusObject.field.
      repeat match goal with
             | |- context [String.eqb name ?field] => destruct (String.eqb name field)
             end; auto.
      destruct (StatusObject.member name); intuition.
    + destruct (StatusObject.member name); intuition.
Qed.

Lemma getRateLimitStatus_agrees_witness :
  match StatusObject.read (getRateLimitStatus oneRequestCounted 31000)
          "fetchRepositories" with
  | StatusObject.Entry status =>
      Map.has "fetchRepositories" (rateLimits oneRequestCounted) = true
      /\ 0 <= LimitStatus.timeUntilReset status
      /\ (0 < LimitStatus.timeUntilReset status
          <-> isRateLimited oneRequestCounted "fetchRepositories" 31000 = true)
      /\ (LimitStatus.isLimited status = true
          -> isRateLimited oneRequestCounted "fetchRepositories" 31000 = true)
  | StatusObject.Undefined =>
      Map.get "fetchRepositories" (rateLimits oneRequestCounted) = None
      /\ isRateLimited oneRequestCounted "fetchRepositories" 31000 = false
  | StatusObject.NumberField _ | StatusObject.BooleanField _ | StatusObject.Member _ =>
      Map.get "fetchRepositories" (rateLimits oneRequestCounted) = None
      /\ isRateLimited oneRequestCounted "fetchRepositories" 31000 = false
      /\ (Obj.inherited "fetchRepositories" <> None
          \/ Map.has "__proto__" (rateLimits oneRequestCounted) = true)
  end.
Proof.
  apply (getRateLimitStatus_agrees oneRequestCounted "fetchRepositories" 31000).
  apply applyRateLimit_uniqueKeys. constructor.
Defined.

(** ** Clearing twice *)

Lemma clearKey_fold_none (operation : string) (ks : list string) (h : ErrorHandler) :
  Forall (fun k => Str.startsWith k operation = false) ks ->
  fold_left (clearKey operation) ks h = h.
Proof.
  intros Hks. revert h. induction Hks as [| k ks Hk _ IH]; intros h; simpl; [reflexivity |].
  unfold clearKey at 2. rewrite Hk. apply IH.
Qed.

(** [clearErrors] is idempotent: a second call with the same argument changes
    nothing. *)
Theorem clearErrors_idempotent (h : ErrorHandler) (operation : option string) :
  clearErrors (clearErrors h operation) operation = clearErrors h operation.
Proof.
  destruct operation as [[| c s] |]; [reflexivity | | reflexivity].
  set (name := String c s).
  change (clearErrors (clearErrors h (Some name)) (Some name))
    with (fold_left (clearKey name) (Map.keys (errorCounts (clearErrors h (Some name))))
            (clearErrors h (Some name))).
  apply clearKey_fold_none.
  change (clearErrors h (Some name))
    with (fold_left (clearKey name) (Map.keys (errorCounts h)) h).
  destruct (clearKey_fold name (Map.keys (errorCounts h)) h) as (Hec & _ & _).
  rewrite Hec. apply Forall_forall. intros k Hin.
  unfold Map.keys in Hin at 1. apply in_map_iff in Hin.
  destruct Hin as ([k' v] & <- & Hin).
  apply filter_In in Hin. destruct Hin as (Hin & Hkeep). cbn [fst] in *.
  rewrite clearedIn_keys in Hkeep.
  assert (Hhas : Map.has k' (errorCounts h) = true).
  { apply has_true_in. unfold Map.keys. apply in_map_iff. now exists (k', v). }
  rewrite Hhas, andb_true_r in Hkeep. now apply negb_true_iff in Hkeep.
Qed.

(** ** What a call leaves of the state *)

Lemma get_in {V : Type} (k : string) (v : V) (m : Map.t V) :
  Map.get k m = Some v -> In (k, v) m.
Proof.
  induction m as [| [k' v'] m IH]; simpl; [discriminate |].
  destruct (String.eqb k k') eqn:E.
  - apply String.eqb_eq in E. intros [= ->]. subst. now left.
  - intros H. right. auto.
Qed.

Lemma Forall_set {V : Type} (P : string * V -> Prop) (k : string) (v : V) (m : Map.t V) :
  Forall P m -> P (k, v) -> Forall P (Map.set k v m).
Proof.
  intros Hm Hkv. induction Hm as [| [k' v'] m Hhead Htail IH]; simpl.
  - now constructor.
  - destruct (String.eqb k k'); constructor; assumption.
Qed.

Lemma Forall_filter {A : Type} (P : A -> Prop) (p : A -> bool) (l : list A) :
  Forall P l -> Forall P (filter p l).
Proof.
  intros Hl. apply Forall_forall. intros a Hin. apply filter_In in Hin.
  rewrite Forall_forall in Hl. apply Hl. tauto.
Qed.







Section LoopState.
Context {R : Type} (w : World R).
Variables (key : string) (maxRetries : nat) (maxDelay : Z).

Lemma attempts_rateLimits remaining :
  forall attempt lastError h slept,
    rateLimits (handler (attempts w key maxRetries maxDelay remaining attempt lastError h slept))
    = rateLimits h.
Proof.
  induction remaining as [| remaining IH]; intros attempt lastError h slept; simpl;
    [reflexivity |].
  destruct (operation w attempt) as [error | result]; simpl; [| reflexivity].
  destruct (shouldNotRetry error); simpl; [reflexivity |].
  destruct (attempt =? maxRetries)%nat; simpl; [reflexivity |].
  now rewrite IH.
Qed.

Lemma attempts_own_error remaining :
  forall attempt lastError h slept raised,
    outcome (attempts w key maxRetries maxDelay remaining attempt lastError h slept)
    = inl raised ->
    exists thrown, raised = Thrown thrown.
Proof.
  induction remaining as [| remaining IH]; intros attempt lastError h slept raised; simpl.
  - intros [= <-]. eauto.
  - destruct (operation w attempt) as [error | result]; simpl; [| discriminate].
    destruct (shouldNotRetry error); simpl; [intros [= <-]; eauto |].
    destruct (attempt =? maxRetries)%nat; simpl; [intros [= <-]; eauto |]. apply IH.
Qed.

End LoopState.

(** A call never changes a rate-limit window, and a call refused with
    [CircuitOpen] changes nothing at all. *)
Theorem retryOperation_keeps_rateLimits {R : Type} (h : ErrorHandler) (w : World R)
    (options : Options) :
  rateLimits (handler (retryOperation h w options)) = rateLimits h
  /\ (forall name, outcome (retryOperation h w options) = inl (CircuitOpen name) ->
                   handler (retryOperation h w options) = h).
Proof.
  unfold retryOperation.
  destruct (circuitBreaker h _ _ _ _) as [raised | h'] eqn:Ecb; [simpl; auto |].
  pose proof (circuitBreaker_rateLimits _ _ _ _ _ _ Ecb) as Hrl.
  destruct (rateLimitCheck h' _ _) as [raised |] eqn:Erl.
  - simpl. split; [assumption |]. intros name [= ->].
    unfold rateLimitCheck in Erl. destruct (isRateLimited h' _ _); [| discriminate].
    destruct (Map.get _ (rateLimits h')); discriminate.
  - rewrite attempts_rateLimits. split; [assumption |].
    intros name Hout. apply attempts_own_error in Hout.
    destruct Hout as (thrown & Heq). discriminate.
Qed.



(** ** Success after retries *)

Section LoopSuccess.
Context {R : Type} (w : World R).
Variables (key : string) (maxRetries : nat) (maxDelay : Z).

Lemma attempts_first_success (k : nat) (value : R) remaining :
  forall attempt lastError h slept,
    (attempt + remaining = S maxRetries)%nat -> (attempt <= k <= maxRetries)%nat ->
    operation w k = inr value ->
    (forall i, (attempt <= i < k)%nat ->
               exists e, operation w i = inl e /\ shouldNotRetry e = false) ->
    let r := attempts w key maxRetries maxDelay remaining attempt lastError h slept in
    outcome r = inr value /\ invocations r = S k
    /\ (length (delays r) + attempt = length slept + k)%nat.
Proof.
  induction remaining as [| remaining IH];
    intros attempt lastError h slept Hsum Hk Hok Hfail; [lia |].
  cbn [attempts]. destruct (Nat.eq_dec attempt k) as [-> | Hne].
  - rewrite Hok. simpl. repeat split; lia.
  - destruct (Hfail attempt ltac:(lia)) as (e & Hop & Hno). rewrite Hop, Hno.
    destruct (Nat.eqb_spec attempt maxRetries) as [-> | Hlast]; [lia |].
    specialize (IH (S attempt) (Some e)
                  (snd (trackError h key
                          (mkError (Some (getErrorType e)) (message e) (status e))
                          (nowTrack w attempt)))
                  (slept ++ [getRetryDelay
                               (snd (trackError h key
                                       (mkError (Some (getErrorType e)) (message e)
                                          (status e))
                                       (nowTrack w attempt)))
                               key attempt (Some maxDelay) (random w attempt)])%list
                  ltac:(lia) ltac:(lia) Hok).
    destruct IH as (Hout & Hinv & Hlen).
    { intros i Hi. apply Hfail. lia. }
    cbv zeta. rewrite Hout, Hinv. repeat split.
    rewrite length_app in Hlen. cbn [length] in Hlen. lia.
Qed.
End LoopSuccess.

(** When a call gets past its two entry checks and the operation succeeds at
    its invocation number [k] (counting from 0, with [k <= maxRetries]) after
    failures that [shouldNotRetry] lets through, the call returns that value
    after exactly [k + 1] invocations and [k] delays, and no entry is left
    under the plain operation name. *)
Theorem retryOperation_returns_first_success {R : Type} (h : ErrorHandler) (w : World R)
    (options : Options) (k : nat) (value : R) :
  let key := orDefault "unknown" (operationName options) in
  circuitOpen h options (nowCircuit w) = false ->
  isRateLimited h key (nowRateLimit w) = false ->
  (k <= orDefault 3 (maxRetries options))%nat ->
  operation w k = inr value ->
  (forall i, (i < k)%nat -> exists e, operation w i = inl e /\ shouldNotRetry e = false) ->
  let r := retryOperation h w options in
  outcome r = inr value
  /\ invocations r = S k
  /\ length (delays r) = k
  /\ Map.get key (errorCounts (handler r)) = None.
Proof.
  intros key Hcb Hrl Hk Hok Hfail r. subst r.
  unfold circuitOpen in Hcb. fold key in Hcb.
  destruct (circuitBreaker h key _ _ _) as [raised | h'] eqn:Ecb; [discriminate |].
  rewrite (retryOperation_enters_loop h h' w options Ecb Hrl). fold key.
  destruct (attempts_first_success w key (orDefault 3%nat (maxRetries options))
              (orDefault 30000 (maxDelay options)) k value
              (S (orDefault 3%nat (maxRetries options))) 0 None h' []
              ltac:(lia) ltac:(lia) Hok) as (Hout & Hinv & Hlen).
  { intros i Hi. apply Hfail. lia. }
  repeat split; try assumption.
  - cbn [length] in Hlen. lia.
  - eapply attempts_success_deletes_key. exact Hout.
Qed.

Lemma retryOperation_returns_first_success_witness :
  let r := retryOperation newErrorHandler (failsTwice 1000) (threeRetries "saveNote") in
  outcome r = inr "saved"
  /\ invocations r = 3%nat
  /\ length (delays r) = 2%nat
  /\ Map.get "saveNote" (errorCounts (handler r)) = None.
Proof.
  apply (retryOperation_returns_first_success newErrorHandler (failsTwice 1000)
           (threeRetries "saveNote") 2 "saved").
  - reflexivity.
  - reflexivity.
  - simpl. lia.
  - reflexivity.
  - intros i Hi. exists networkDown. split; [| reflexivity].
    destruct i as [| [| i]]; [reflexivity | reflexivity | lia].
Defined.

(** ** Invariants of the counters *)

Lemma boundedWindows_applyRateLimit (h : ErrorHandler) operation windowMs maxRequests now :
  boundedWindows h ->
  boundedWindows (snd (applyRateLimit h operation windowMs maxRequests now)).
Proof.
  unfold boundedWindows, applyRateLimit. intros Hb.
  destruct (Map.get operation (rateLimits h)) as [limit |] eqn:Hget; simpl.
  - pose proof (get_in _ _ _ Hget) as Hin. rewrite Forall_forall in Hb.
    pose proof (Hb _ Hin) as [Hlow Hhigh]. simpl in Hlow, Hhigh.
    assert (Hb' : Forall (fun entry => 1 <= Limit.count (snd entry)
                                       /\ Limit.count (snd entry)
                                          <= Z.max 1 (Limit.maxRequests (snd entry)))
                    (rateLimits h)) by now apply Forall_forall.
    destruct (Limit.resetTime limit <=? now); simpl.
    + apply Forall_set; [assumption |]. simpl. lia.
    + destruct (Z.leb_spec (Limit.maxRequests limit) (Limit.count limit)); simpl;
        [assumption |].
      apply Forall_set; [assumption |]. simpl. lia.
  - apply Forall_set; [assumption |]. simpl. lia.
Qed.

Lemma positiveCounts_trackError (h : ErrorHandler) operation error now :
  positiveCounts h -> positiveCounts (snd (trackError h operation error now)).
Proof.
  unfold positiveCounts, trackError. cbn [snd errorCounts]. intros Hp.
  apply Forall_set; [assumption |]. simpl.
  destruct (Map.get _ (errorCounts h)) as [tracking |] eqn:Hget; simpl; [| lia].
  apply get_in in Hget. rewrite Forall_forall in Hp. apply Hp in Hget. simpl in Hget. lia.
Qed.

Lemma positiveCounts_attempts {R : Type} (w : World R) key maxRetries maxDelay remaining :
  forall attempt lastError h slept,
    positiveCounts h ->
    positiveCounts
      (handler (attempts w key maxRetries maxDelay remaining attempt lastError h slept)).
Proof.
  induction remaining as [| remaining IH]; intros attempt lastError h slept Hp; simpl;
    [assumption |].
  destruct (operation w attempt) as [error | result]; simpl.
  - pose proof (positiveCounts_trackError h key
                  (mkError (Some (getErrorType error)) (message error) (status error))
                  (nowTrack w attempt) Hp) as Hp'.
    destruct (shouldNotRetry error); simpl; [assumption |].
    destruct (attempt =? maxRetries)%nat; simpl; [assumption |].
    now apply IH.
  - unfold positiveCounts. simpl. now apply Forall_filter.
Qed.

Lemma counters_retryOperation {R : Type} (h : ErrorHandler) (w : World R) options :
  boundedWindows h /\ positiveCounts h ->
  boundedWindows (handler (retryOperation h w options))
  /\ positiveCounts (handler (retryOperation h w options)).
Proof.
  intros [Hb Hp]. split.
  - unfold boundedWindows.
    assert (Hrl : rateLimits (handler (retryOperation h w options)) = rateLimits h).
    { unfold retryOperation.
      destruct (circuitBreaker h _ _ _ _) as [raised | h'] eqn:Ecb; [reflexivity |].
      pose proof (circuitBreaker_rateLimits _ _ _ _ _ _ Ecb) as Hrl.
      destruct (rateLimitCheck h' _ _); [assumption |].
      now rewrite attempts_rateLimits. }
    now rewrite Hrl.
  - unfold retryOperation.
    destruct (circuitBreaker h _ _ _ _) as [raised | h'] eqn:Ecb; [assumption |].
    assert (Hp' : positiveCounts h').
    { revert Ecb. unfold circuitBreaker.
      destruct (Map.get _ (errorCounts h)) as [tracking |]; [| now intros [= <-]].
      destruct (_ <=? Tracking.count tracking); [| now intros [= <-]].
      destruct (_ <? _); [discriminate |]. intros [= <-].
      unfold positiveCounts. simpl. now apply Forall_filter. }
    destruct (rateLimitCheck h' _ _); [assumption |].
    now apply positiveCounts_attempts.
Qed.

Lemma counters_clearErrors (h : ErrorHandler) operation :
  boundedWindows h /\ positiveCounts h ->
  boundedWindows (clearErrors h operation) /\ positiveCounts (clearErrors h operation).
Proof.
  intros [Hb Hp].
  destruct operation as [[| c s] |]; try (split; [exact Hb | constructor]).
  change (clearErrors h (Some (String c s)))
    with (fold_left (clearKey (String c s)) (Map.keys (errorCounts h)) h).
  destruct (clearKey_fold (String c s) (Map.keys (errorCounts h)) h) as (Hec & _ & Hrl).
  unfold boundedWindows, positiveCounts. rewrite Hec, Hrl.
  split; [assumption | now apply Forall_filter].
Qed.

(** In every reachable state each rate-limit window has counted at least one
    request and no more than its [maxRequests] (one, when [maxRequests] is
    below one), and each tracking entry has counted at least one failure. *)
Theorem reachable_counters (h : ErrorHandler) :
  Reachable h -> boundedWindows h /\ positiveCounts h.
Proof.
  induction 1 as [| h operation error now _ [Hb Hp] | h operation windowMs maxRequests now _ [Hb Hp]
                  | h R w options _ IH | h operation _ IH].
  - split; constructor.
  - split; [exact Hb | now apply positiveCounts_trackError].
  - split; [now apply boundedWindows_applyRateLimit |].
    unfold positiveCounts, applyRateLimit.
    destruct (Map.get operation (rateLimits h)) as [limit |]; simpl; [| assumption].
    destruct (Limit.resetTime limit <=? now); simpl; [assumption |].
    destruct (Limit.maxRequests limit <=? Limit.count limit); assumption.
  - now apply counters_retryOperation.
  - now apply counters_clearErrors.
Qed.

Lemma reachable_counters_witness :
  boundedWindows oneRequestCounted /\ positiveCounts oneRequestCounted.
Proof.
  apply (reachable_counters oneRequestCounted).
  unfold oneRequestCounted. apply reach_applyRateLimit, reach_new.
Defined.

(** ** Later calls of [applyRateLimit] *)

(** Once a window exists for an operation name, the [maxRequests] argument of
    a later call plays no part, and the window keeps the [windowMs] and
    [maxRequests] it was created with; the [windowMs] argument is used only
    when the window has expired, for the new reset time, and the call then
    restarts the count at one. *)
Theorem applyRateLimit_existing_window (h : ErrorHandler) (name : string)
    (limit : Limit.t) (windowMs maxRequests : option Z) (now : Z) :
  Map.get name (rateLimits h) = Some limit ->
  (forall other, applyRateLimit h name windowMs other now
                 = applyRateLimit h name windowMs maxRequests now)
  /\ exists limit',
       Map.get name (rateLimits (snd (applyRateLimit h name windowMs maxRequests now)))
       = Some limit'
       /\ Limit.windowMs limit' = Limit.windowMs limit
       /\ Limit.maxRequests limit' = Limit.maxRequests limit
       /\ (Limit.resetTime limit <= now ->
           Limit.count limit' = 1
           /\ Limit.resetTime limit' = now + orDefault 60000 windowMs)
       /\ (now < Limit.resetTime limit -> Limit.resetTime limit' = Limit.resetTime limit).
Proof.
  intros Hget. split.
  - intros other. unfold applyRateLimit. now rewrite Hget.
  - unfold applyRateLimit. rewrite Hget.
    destruct (Z.leb_spec (Limit.resetTime limit) now) as [Hexp | Hact]; simpl.
    + eexists. rewrite get_set_same. split; [reflexivity |]. simpl.
      repeat split; try reflexivity; lia.
    + destruct (Limit.maxRequests limit <=? Limit.count limit); simpl.
      * exists limit. rewrite Hget. repeat split; try reflexivity; lia.
      * eexists. rewrite get_set_same. split; [reflexivity |]. simpl.
        repeat split; try reflexivity; lia.
Qed.

Lemma applyRateLimit_existing_window_witness :
  (forall other, applyRateLimit oneRequestCounted "fetchRepositories" (Some 5) other 70000
                 = applyRateLimit oneRequestCounted "fetchRepositories" (Some 5) (Some 1)
                     70000)
  /\ exists limit',
       Map.get "fetchRepositories"
         (rateLimits
            (snd (applyRateLimit oneRequestCounted "fetchRepositories" (Some 5) (Some 1)
                    70000)))
       = Some limit'
       /\ Limit.windowMs limit' = 60000
       /\ Limit.maxRequests limit' = 10
       /\ (61000 <= 70000 ->
           Limit.count limit' = 1 /\ Limit.resetTime limit' = 70000 + 5)
       /\ (70000 < 61000 -> Limit.resetTime limit' = 61000).
Proof.
  apply (applyRateLimit_existing_window oneRequestCounted "fetchRepositories"
           (Limit.mk 1 61000 60000 10) (Some 5) (Some 1) 70000).
  reflexivity.
Defined.

(** Whatever [applyRateLimit] answers, it leaves a window for the name, and
    until that window's reset time every [retryOperation] for the same name
    is refused without invoking the operation: with [RateLimited] and that
    reset time, unless the circuit breaker refuses it first.  When the call
    created the window, or found it expired, the reset time is the time of
    the call plus [windowMs], and the answer was false. *)
Theorem applyRateLimit_then_retryOperation (h : ErrorHandler) (name : string)
    (windowMs maxRequests : option Z) (now : Z) :
  let limited := fst (applyRateLimit h name windowMs maxRequests now) in
  let h' := snd (applyRateLimit h name windowMs maxRequests now) in
  exists limit,
    Map.get name (rateLimits h') = Some limit
    /\ (forall (R : Type) (w : World R) (options : Options),
          operationName options = Some name ->
          nowRateLimit w < Limit.resetTime limit ->
          invocations (retryOperation h' w options) = 0%nat
          /\ outcome (retryOperation h' w options)
             = inl (if circuitOpen h options (nowCircuit w) then CircuitOpen name
                    else RateLimited name (Limit.resetTime limit)))
    /\ ((Map.get name (rateLimits h) = None
         \/ exists old, Map.get name (rateLimits h) = Some old
                        /\ Limit.resetTime old <= now) ->
        limited = false
        /\ Limit.resetTime limit = now + orDefault 60000 windowMs).
Proof.
  intros limited h'.
  assert (Hec : errorCounts h' = errorCounts h).
  { subst h'. unfold applyRateLimit.
    destruct (Map.get name (rateLimits h)) as [old |]; [| reflexivity].
    destruct (Limit.resetTime old <=? now); [reflexivity |].
    destruct (Limit.maxRequests old <=? Limit.count old); reflexivity. }
  assert (Hwin : exists limit,
             Map.get name (rateLimits h') = Some limit
             /\ ((Map.get name (rateLimits h) = None
                  \/ exists old, Map.get name (rateLimits h) = Some old
                                 /\ Limit.resetTime old <= now) ->
                 limited = false
                 /\ Limit.resetTime limit = now + orDefault 60000 windowMs)).
  { subst limited h'. unfold applyRateLimit.
    destruct (Map.get name (rateLimits h)) as [old |] eqn:Hget.
    - destruct (Z.leb_spec (Limit.resetTime old) now) as [Hexp | Hact]; simpl.
      + eexists. rewrite get_set_same. split; [reflexivity |]. simpl. auto.
      + destruct (Limit.maxRequests old <=? Limit.count old); simpl.
        * exists old. split; [assumption |].
          intros [Hnone | (old' & [= <-] & Hexp)]; [discriminate | lia].
        * eexists. rewrite get_set_same. split; [reflexivity |].
          intros [Hnone | (old' & [= <-] & Hexp)]; [discriminate | lia].
    - simpl. eexists. rewrite get_set_same. split; [reflexivity |]. simpl. auto. }
  destruct Hwin as (limit & Hget & Hfresh). exists limit.
  split; [assumption |]. split; [| assumption].
  intros R w options Hname Hnow. unfold retryOperation, circuitOpen, circuitBreaker.
  rewrite Hname, Hec. simpl orDefault.
  destruct (Map.get name (errorCounts h)) as [tracking |].
  - destruct (_ <=? Tracking.count tracking).
    + destruct (_ <? _); [simpl; auto |].
      rewrite (rateLimitCheck_limited _ name (nowRateLimit w) limit); simpl; auto.
    + rewrite (rateLimitCheck_limited _ name (nowRateLimit w) limit); simpl; auto.
  - rewrite (rateLimitCheck_limited _ name (nowRateLimit w) limit); simpl; auto.
Qed.

(** ** The delays of one call *)

Lemma errorCountFor_nonneg (h : ErrorHandler) (operation : string) :
  positiveCounts h -> 0 <= errorCountFor h operation.
Proof.
  unfold positiveCounts, errorCountFor. intros Hp.
  destruct (Map.get operation (errorCounts h)) as [tracking |] eqn:Hget; [| lia].
  apply get_in in Hget. rewrite Forall_forall in Hp. apply Hp in Hget. simpl in Hget. lia.
Qed.

Lemma errorFactor_le (errorCount : Z) : (errorFactor errorCount <= 3 # 2)%Q.
Proof.
  unfold errorFactor, Qle, Qplus, Qmult, inject_Z. cbn [Qnum Qden].
  assert (Z.min errorCount 5 <= 5) by lia. lia.
Qed.

(** a delay is never negative and never above one and a half times the cap *)
Lemma getRetryDelay_range (h : ErrorHandler) (operation : string) (attempt : nat)
    (maxDelay : Z) (random : Q) :
  positiveCounts h -> 0 <= maxDelay -> (0 <= random)%Q ->
  delayInRange maxDelay (getRetryDelay h operation attempt (Some maxDelay) random).
Proof.
  intros Hp Hmax Hr. unfold delayInRange. rewrite getRetryDelay_base_1000.
  pose proof (errorCountFor_nonneg h operation Hp) as Hn.
  pose proof (errorFactor_pos _ Hn) as Hf. pose proof (errorFactor_le (errorCountFor h operation)) as Hf'.
  unfold specDelay.
  change (1 + inject_Z (Z.min (errorCountFor h operation) 5) * (1 # 10))%Q
    with (errorFactor (errorCountFor h operation)).
  assert (Hcap : (0 <= inject_Z maxDelay)%Q).
  { unfold Qle, inject_Z. cbn [Qnum Qden]. lia. }
  split.
  - apply Qmult_le_0_compat; [| now apply Qlt_le_weak].
    apply Q.min_glb; [| assumption].
    apply Qle_trans with (inject_Z (1000 * 2 ^ Z.of_nat attempt) + 0)%Q.
    + rewrite Qplus_0_r. unfold Qle, inject_Z. cbn [Qnum Qden].
      assert (0 <= 2 ^ Z.of_nat attempt) by (apply Z.pow_nonneg; lia). lia.
    + apply Qplus_le_r. apply Qmult_le_0_compat; [assumption | discriminate].
  - apply Qle_trans with (inject_Z maxDelay * errorFactor (errorCountFor h operation))%Q.
    + apply Qmult_le_compat_r; [apply Q.le_min_r | now apply Qlt_le_weak].
    + rewrite (Qmult_comm (inject_Z maxDelay)), (Qmult_comm (inject_Z maxDelay)).
      now apply Qmult_le_compat_r.
Qed.

Section LoopDelays.
Context {R : Type} (w : World R).
Variables (key : string) (maxRetries : nat) (maxDelay : Z).
Hypothesis maxDelay_nonneg : 0 <= maxDelay.
Hypothesis random_nonneg : forall i, (0 <= random w i)%Q.

Lemma attempts_delays remaining :
  forall attempt lastError h slept,
    (attempt + remaining = S maxRetries)%nat -> (0 < remaining)%nat ->
    positiveCounts h -> Forall (delayInRange maxDelay) slept ->
    let r := attempts w key maxRetries maxDelay remaining attempt lastError h slept in
    (S (length (delays r)) + attempt = length slept + invocations r)%nat
    /\ Forall (delayInRange maxDelay) (delays r).
Proof.
  induction remaining as [| remaining IH];
    intros attempt lastError h slept Hsum Hpos Hp Hslept; [lia |].
  cbn [attempts]. destruct (operation w attempt) as [error | result].
  - set (h1 := snd (trackError h key _ (nowTrack w attempt))).
    assert (Hp1 : positiveCounts h1) by now apply positiveCounts_trackError.
    destruct (shouldNotRetry error); [simpl; split; [lia | assumption] |].
    destruct (Nat.eqb_spec attempt maxRetries) as [-> | Hne];
      [simpl; split; [lia | assumption] |].
    specialize (IH (S attempt) (Some error) h1
                  (slept ++ [getRetryDelay h1 key attempt (Some maxDelay) (random w attempt)])%list
                  ltac:(lia) ltac:(lia) Hp1).
    destruct IH as (Hlen & Hall).
    { apply Forall_app. split; [assumption |]. constructor; [| constructor].
      apply getRetryDelay_range; auto. }
    cbv zeta. split; [| exact Hall].
    rewrite length_app in Hlen. cbn [length] in Hlen. lia.
  - simpl. split; [lia | assumption].
Qed.
End LoopDelays.

(** A call waits once between two invocations and never otherwise: the number
    of delays is the number of invocations less one (none for a refused call).
    With a non-negative cap and in a state whose tracking counts are positive
    (every reachable state), each delay lies between 0 and one and a half
    times [maxDelay]. *)
Theorem retryOperation_delays {R : Type} (h : ErrorHandler) (w : World R)
    (options : Options) :
  positiveCounts h ->
  0 <= orDefault 30000 (maxDelay options) ->
  (forall i, (0 <= random w i)%Q) ->
  let r := retryOperation h w options in
  length (delays r) = pred (invocations r)
  /\ Forall (delayInRange (orDefault 30000 (maxDelay options))) (delays r).
Proof.
  intros Hp Hmax Hr r. subst r. unfold retryOperation.
  destruct (circuitBreaker h _ _ _ _) as [raised | h'] eqn:Ecb; [simpl; auto |].
  assert (Hp' : positiveCounts h').
  { revert Ecb. unfold circuitBreaker.
    destruct (Map.get _ (errorCounts h)) as [tracking |]; [| now intros [= <-]].
    destruct (_ <=? Tracking.count tracking); [| now intros [= <-]].
    destruct (_ <? _); [discriminate |]. intros [= <-].
    unfold positiveCounts. simpl. now apply Forall_filter. }
  destruct (rateLimitCheck h' _ _); [simpl; auto |].
  destruct (attempts_delays w (orDefault "unknown" (operationName options))
              (orDefault 3%nat (maxRetries options)) (orDefault 30000 (maxDelay options))
              Hmax Hr (S (orDefault 3%nat (maxRetries options))) 0 None h' []
              ltac:(lia) ltac:(lia) Hp' ltac:(constructor)) as (Hlen & Hall).
  split; [| exact Hall]. cbn [length] in Hlen. lia.
Qed.

Lemma retryOperation_delays_witness :
  let r := retryOperation newErrorHandler (alwaysFailing serverDown 0) noOptions in
  length (delays r) = pred (invocations r)
  /\ Forall (delayInRange 30000) (delays r).
Proof.
  apply (retryOperation_delays newErrorHandler (alwaysFailing serverDown 0) noOptions).
  - constructor.
  - simpl. lia.
  - intros i. discriminate.
Defined.

(** ** App.js: the local retry helper *)

Section AppTries.
Context {R : Type} (operation : nat -> JsError + option R).
Variable maxRetries : nat.

Lemma tries_shape remaining :
  forall i slept,
    (i + remaining = maxRetries)%nat -> (0 < remaining)%nat ->
    let r := App.tries operation maxRetries remaining i slept in
    (i < App.invocations r <= maxRetries)%nat
    /\ (S (length (App.delays r)) + i = length slept + App.invocations r)%nat
    /\ App.outcome r = operation (pred (App.invocations r))
    /\ (forall j, (i <= j < pred (App.invocations r))%nat ->
                  exists e, operation j = inl e).
Proof.
  induction remaining as [| remaining IH]; intros i slept Hsum Hpos; [lia |].
  cbn [App.tries]. destruct (operation i) as [error | result] eqn:Hop.
  - destruct (Nat.eqb_spec i (maxRetries - 1)) as [Hlast | Hmore].
    + cbn [App.invocations App.delays App.outcome pred].
      repeat split; try lia. now rewrite Hop.
    + specialize (IH (S i) (slept ++ [1000 * (Z.of_nat i + 1)])%list
                    ltac:(lia) ltac:(lia)).
      cbv zeta in IH. destruct IH as (Hinv & Hlen & Hout & Hfail).
      rewrite length_app in Hlen. cbn [length] in Hlen.
      repeat split; try assumption; try lia.
      intros j Hj. destruct (Nat.eq_dec j i) as [-> | Hne]; [now exists error |].
      apply Hfail. lia.
  - cbn [App.invocations App.delays App.outcome pred].
    repeat split; try lia. now rewrite Hop.
Qed.

Lemma tries_all_fail remaining :
  forall i slept,
    (i + remaining = maxRetries)%nat -> (0 < remaining)%nat ->
    (forall j, (j < maxRetries)%nat -> exists e, operation j = inl e) ->
    let r := App.tries operation maxRetries remaining i slept in
    App.invocations r = maxRetries
    /\ (exists e, operation (maxRetries - 1) = inl e /\ App.outcome r = inl e)
    /\ App.delays r
       = (slept ++ map (fun j => 1000 * (Z.of_nat j + 1)) (seq i (remaining - 1)))%list.
Proof.
  induction remaining as [| remaining IH]; intros i slept Hsum Hpos Hfail; [lia |].
  cbn [App.tries]. destruct (Hfail i ltac:(lia)) as (e & Hop). rewrite Hop.
  destruct (Nat.eqb_spec i (maxRetries - 1)) as [Hlast | Hmore].
  - assert (remaining = 0)%nat by lia. subst remaining. simpl.
    repeat split; try lia.
    + exists e. now rewrite <- Hlast.
    + now rewrite app_nil_r.
  - specialize (IH (S i) (slept ++ [1000 * (Z.of_nat i + 1)])%list
                  ltac:(lia) ltac:(lia) Hfail).
    cbv zeta in IH. destruct IH as (Hinv & Hout & Hdel).
    repeat split; try assumption.
    rewrite Hdel, <- app_assoc. f_equal.
    destruct remaining as [| remaining]; [lia |]. simpl. now rewrite Nat.sub_0_r.
Qed.

Lemma tries_first_success (k : nat) (value : option R) remaining :
  forall i slept,
    (i + remaining = maxRetries)%nat -> (i <= k < maxRetries)%nat ->
    operation k = inr value ->
    (forall j, (i <= j < k)%nat -> exists e, operation j = inl e) ->
    let r := App.tries operation maxRetries remaining i slept in
    App.outcome r = inr value /\ App.invocations r = S k.
Proof.
  induction remaining as [| remaining IH]; intros i slept Hsum Hk Hok Hfail; [lia |].
  cbn [App.tries]. destruct (Nat.eq_dec i k) as [-> | Hne].
  - rewrite Hok. simpl. auto.
  - destruct (Hfail i ltac:(lia)) as (e & Hop). rewrite Hop.
    destruct (Nat.eqb_spec i (maxRetries - 1)) as [Hlast | Hmore]; [lia |].
    apply IH; try assumption; try lia. intros j Hj. apply Hfail. lia.
Qed.
End AppTries.

(** The helper of App.js never invokes the operation more than [maxRetries]
    times and waits once between two invocations.  With [maxRetries = 0] it
    resolves to [undefined] without invoking the operation at all.  With
    [maxRetries >= 1] it invokes the operation at least once and settles as
    its last invocation settled, every earlier invocation having failed: it
    then resolves to [undefined] only when that invocation did. *)
Theorem App_retryOperation_shape {R : Type} (operation : nat -> JsError + option R)
    (maxRetries : option nat) :
  let n := orDefault 3%nat maxRetries in
  let r := App.retryOperation operation maxRetries in
  (App.invocations r <= n)%nat
  /\ length (App.delays r) = pred (App.invocations r)
  /\ (n = 0%nat -> App.outcome r = inr None /\ App.invocations r = 0%nat)
  /\ ((0 < n)%nat ->
      (1 <= App.invocations r)%nat
      /\ App.outcome r = operation (pred (App.invocations r))
      /\ (forall j, (j < pred (App.invocations r))%nat -> exists e, operation j = inl e)).
Proof.
  intros n r. subst r. unfold App.retryOperation. fold n.
  destruct n as [| n].
  - cbn [App.tries App.invocations App.delays App.outcome length pred].
    repeat split; try lia; reflexivity.
  - destruct (tries_shape operation (S n) (S n) 0 [] ltac:(lia) ltac:(lia))
      as (Hinv & Hlen & Hout & Hfail).
    cbn [length] in Hlen.
    split; [lia |]. split; [lia |]. split; [discriminate |].
    intros _. split; [lia |]. split; [exact Hout |].
    intros j Hj. apply Hfail. lia.
Qed.

(** When every invocation fails, the helper called with [maxRetries >= 1]
    invokes the operation exactly [maxRetries] times, throws the error of the
    last invocation, and has waited 1000 ms after the first failure, 2000 ms
    after the second, and so on: [maxRetries - 1] delays in all. *)
Theorem App_retryOperation_all_fail {R : Type} (operation : nat -> JsError + option R)
    (n : nat) :
  (0 < n)%nat ->
  (forall j, (j < n)%nat -> exists e, operation j = inl e) ->
  let r := App.retryOperation operation (Some n) in
  App.invocations r = n
  /\ (exists e, operation (n - 1)%nat = inl e /\ App.outcome r = inl e)
  /\ App.delays r = map (fun j => 1000 * (Z.of_nat j + 1)) (seq 0 (n - 1)).
Proof.
  intros Hn Hfail r. subst r. unfold App.retryOperation. cbn [orDefault].
  apply (tries_all_fail operation n n 0 [] ltac:(lia) Hn Hfail).
Qed.

Lemma App_retryOperation_all_fail_witness :
  let operation := fun _ : nat => @inl JsError (option unit) notFound in
  let r := App.retryOperation operation (Some 3%nat) in
  App.invocations r = 3%nat
  /\ (exists e, operation 2%nat = inl e /\ App.outcome r = inl e)
  /\ App.delays r = [1000; 2000].
Proof.
  apply (App_retryOperation_all_fail
           (fun _ : nat => @inl JsError (option unit) notFound) 3).
  - lia.
  - intros j _. now exists notFound.
Defined.

(** When the operation succeeds at its invocation number [k] (from 0, with
    [k < maxRetries]) after failures of any kind, the helper returns that
    value ([undefined] included) after [k + 1] invocations: unlike the shared
    executor it retries every error. *)
Theorem App_retryOperation_first_success {R : Type}
    (operation : nat -> JsError + option R) (maxRetries : option nat) (k : nat)
    (value : option R) :
  (k < orDefault 3 maxRetries)%nat ->
  operation k = inr value ->
  (forall j, (j < k)%nat -> exists e, operation j = inl e) ->
  App.outcome (App.retryOperation operation maxRetries) = inr value
  /\ App.invocations (App.retryOperation operation maxRetries) = S k.
Proof.
  intros Hk Hok Hfail. unfold App.retryOperation.
  apply (tries_first_success operation (orDefault 3%nat maxRetries) k value
           (orDefault 3%nat maxRetries) 0 []); try assumption; try lia.
  intros j Hj. apply Hfail. lia.
Qed.

Lemma App_retryOperation_first_success_witness :
  let operation :=
    fun i : nat => if (i <? 2)%nat then inl badCredentials else inr (Some "deleted") in
  App.outcome (App.retryOperation operation None) = inr (Some "deleted")
  /\ App.invocations (App.retryOperation operation None) = 3%nat.
Proof.
  apply (App_retryOperation_first_success
           (fun i : nat =>
              if (i <? 2)%nat then inl badCredentials else inr (Some "deleted"))
           None 2 (Some "deleted")).
  - simpl. lia.
  - reflexivity.
  - intros j Hj. exists badCredentials.
    destruct j as [| [| j]]; [reflexivity | reflexivity | lia].
Defined.

(** ** App.js: the names of notes *)

Lemma mem_replaceChar_gone (x y : ascii) (s : string) :
  x <> y -> Str.mem x (App.replaceChar x y s) = false.
Proof.
  intros Hxy. induction s as [| c s IH]; simpl; [reflexivity |].
  rewrite IH, orb_false_r.
  destruct (Ascii.eqb c x) eqn:E; [| exact E].
  apply Ascii.eqb_neq. congruence.
Qed.

Lemma mem_replaceChar_other (c x y : ascii) (s : string) :
  c <> y -> Str.mem c s = false -> Str.mem c (App.replaceChar x y s) = false.
Proof.
  intros Hcy. induction s as [| a s IH]; simpl; [reflexivity |].
  intros Hmem. apply orb_false_iff in Hmem. destruct Hmem as [Ha Hs].
  rewrite (IH Hs), orb_false_r.
  destruct (Ascii.eqb a x); [| exact Ha].
  apply Ascii.eqb_neq. congruence.
Qed.

Lemma prefix_nil (s : string) : String.prefix "" s = true.
Proof. destruct s; reflexivity. Qed.

Lemma replace_T_cons (a : ascii) (s : string) :
  App.replace (String a s) "T" "_"
  = if Ascii.eqb a "T" then String "_" s else String a (App.replace s "T" "_").
Proof.
  cbn [App.replace String.prefix]. destruct (ascii_dec "T" a) as [<- | Hne].
  - rewrite prefix_nil. reflexivity.
  - apply not_eq_sym, Ascii.eqb_neq in Hne. now rewrite Hne.
Qed.

Lemma mem_replace_T (c : ascii) (s : string) :
  c <> "_"%char -> Str.mem c s = false -> Str.mem c (App.replace s "T" "_") = false.
Proof.
  intros Hc. induction s as [| a s IH]; [reflexivity |].
  intros Hmem. cbn [Str.mem] in Hmem. apply orb_false_iff in Hmem.
  destruct Hmem as [Ha Hs]. rewrite replace_T_cons.
  destruct (Ascii.eqb a "T"); cbn [Str.mem].
  - rewrite Hs, orb_false_r. apply Ascii.eqb_neq. congruence.
  - now rewrite Ha, IH.
Qed.

Lemma endsWith_app (a b : string) : App.endsWith (a ++ b) b = true.
Proof.
  induction a as [| c a IH]; simpl.
  - destruct b; simpl; [reflexivity |]. now rewrite Ascii.eqb_refl, String.eqb_refl.
  - rewrite IH. apply orb_true_r.
Qed.

Lemma endsWith_app3 (a b c : string) : App.endsWith (a ++ b ++ c) c = true.
Proof.
  induction a as [| x a IH]; [cbn [append]; apply endsWith_app |].
  cbn [append App.endsWith]. rewrite IH. apply orb_true_r.
Qed.

Lemma prefix_app (needle rest : string) : String.prefix needle (needle ++ rest) = true.
Proof.
  induction needle as [| c needle IH]; [apply prefix_nil |].
  cbn [append String.prefix]. destruct (ascii_dec c c); [exact IH | congruence].
Qed.

Lemma skip_app (needle rest : string) :
  App.skip (String.length needle) (needle ++ rest) = rest.
Proof. induction needle as [| c needle IH]; [reflexivity | exact IH]. Qed.

(** a pattern at the head of the string is the occurrence replaced *)
Lemma replace_prefix (needle rest replacement : string) :
  App.replace (needle ++ rest) needle replacement = replacement ++ rest.
Proof.
  destruct needle as [| c needle].
  - cbn [append]. destruct rest; cbn [App.replace String.prefix]; reflexivity.
  - cbn [append App.replace].
    change (String c (needle ++ rest)) with (String c needle ++ rest).
    now rewrite prefix_app, skip_app.
Qed.

Lemma replace_md_suffix (t : string) :
  Str.mem "." t = false -> App.replace (t ++ ".md") ".md" "" = t.
Proof.
  induction t as [| c t IH]; [reflexivity |].
  intros Hmem. cbn [Str.mem] in Hmem. apply orb_false_iff in Hmem.
  destruct Hmem as [Hc Ht].
  cbn [append App.replace String.prefix].
  destruct (ascii_dec "." c) as [<- | _].
  - rewrite Ascii.eqb_refl in Hc. discriminate.
  - now rewrite IH.
Qed.

(** A note saved under the time stamp made from any ISO string is found again
    by the filter of [fetchNotes], and the heading shown for it is that time
    stamp: the stamp holds no colon and no full stop, so the two [replace]
    calls of the heading strip exactly the prefix and the extension. *)
Theorem note_name_round_trip (iso : string) :
  let stamp := App.timestamp iso in
  Str.mem ":" stamp = false
  /\ Str.mem "." stamp = false
  /\ App.isGitNote "file" (App.fileName stamp) = true
  /\ App.title (App.fileName stamp) = stamp.
Proof.
  intros stamp.
  assert (Hcolon : Str.mem ":" stamp = false).
  { apply mem_replace_T; [discriminate |].
    apply mem_replaceChar_other; [discriminate |].
    apply mem_replaceChar_gone. discriminate. }
  assert (Hdot : Str.mem "." stamp = false).
  { apply mem_replace_T; [discriminate |].
    apply mem_replaceChar_gone. discriminate. }
  repeat split; try assumption.
  - unfold App.isGitNote, App.fileName. rewrite endsWith_app3, andb_true_r.
    unfold Str.startsWith. cbn [String.eqb append String.prefix Ascii.eqb Bool.eqb].
    simpl. apply prefix_nil.
  - unfold App.title, App.fileName.
    rewrite replace_prefix. cbn [append]. now apply replace_md_suffix.
Qed.

(** The string the date sorts hand to [new Date] never holds a hyphen, so it
    is never the ISO string (which always holds hyphens) that the name of the
    note was made from. *)
Theorem note_date_is_not_restored (name iso : string) :
  Str.mem "-" iso = true ->
  Str.mem "-" (App.dateString name) = false /\ App.dateString name <> iso.
Proof.
  intros Hiso.
  assert (Hgone : Str.mem "-" (App.dateString name) = false)
    by (apply mem_replaceChar_gone; discriminate).
  split; [assumption |]. intros Heq. rewrite Heq in Hgone. congruence.
Qed.

Lemma note_date_is_not_restored_witness :
  App.dateString (App.fileName (App.timestamp "2024-01-15T10:30:00.000Z"))
  <> "2024-01-15T10:30:00.000Z".
Proof.
  apply (note_date_is_not_restored
           (App.fileName (App.timestamp "2024-01-15T10:30:00.000Z"))
           "2024-01-15T10:30:00.000Z").
  reflexivity.
Defined.

(** ** MLCommitReminder.js: the commit streak *)


Section InsightsFacts.
Variables (dayOf : string -> string) (hourOf : string -> Z)
          (weekdayOf : string -> Z) (notBefore : string -> bool).

(** every day is stored under its own date *)
Lemma addEvent_dates (events : list Insights.Event) :
  forall dailyCommits,
    Forall (fun entry => Insights.date (snd entry) = fst entry) dailyCommits ->
    uniqueKeys dailyCommits ->
    let days := fold_left (Insights.addEvent dayOf hourOf weekdayOf) events dailyCommits in
    Forall (fun entry => Insights.date (snd entry) = fst entry) days /\ uniqueKeys days.
Proof.
  induction events as [| event events IH]; intros dailyCommits Hdates Huniq; simpl; [auto |].
  apply IH.
  - unfold Insights.addEvent. apply Forall_set; [assumption |]. simpl.
    destruct (Map.get _ dailyCommits) as [day |] eqn:Hget; [| reflexivity].
    apply get_in in Hget. rewrite Forall_forall in Hdates. now apply Hdates in Hget.
  - now apply uniqueKeys_set.
Qed.

(** [processCommitData] returns one element per date *)
Lemma processCommitData_NoDup (events : list Insights.Event) :
  NoDup (map Insights.date
           (Insights.processCommitData dayOf hourOf weekdayOf notBefore events)).
Proof.
  unfold Insights.processCommitData.
  destruct (addEvent_dates
              (filter (fun event => String.eqb (Insights.type event) "PushEvent"
                                    && notBefore (Insights.created_at event)) events)
              Map.empty ltac:(constructor) ltac:(constructor)) as (Hdates & Huniq).
  cbv zeta in Hdates, Huniq. unfold uniqueKeys, Map.keys in Huniq.
  rewrite map_map.
  erewrite map_ext_in; [exact Huniq |].
  intros entry Hin. rewrite Forall_forall in Hdates. now apply Hdates.
Qed.
End InsightsFacts.

Lemma streak_fold_bounds (today yesterday : string) (days : list Insights.Day) :
  forall streak current,
    let final := fold_left (Insights.streakStep today yesterday) days (streak, current) in
    let recent := length (filter (Insights.isRecentDay today yesterday) days) in
    (Nat.max (fst final) (snd final) <= Nat.max streak current + recent)%nat
    /\ ((0 < recent)%nat -> (0 < Nat.max (fst final) (snd final))%nat)
    /\ ((0 < Nat.max streak current)%nat -> (0 < Nat.max (fst final) (snd final))%nat).
Proof.
  induction days as [| day days IH]; intros streak current; cbn [fold_left filter].
  - simpl. repeat split; lia.
  - change (Insights.streakStep today yesterday (streak, current) day)
      with (if Insights.isRecentDay today yesterday day then (streak, S current)
            else if (0 <? current)%nat then (Nat.max streak current, 0%nat)
                 else (streak, current)).
    destruct (Insights.isRecentDay today yesterday day).
    + specialize (IH streak (S current)). cbv zeta in IH. cbn [length].
      destruct IH as (Hle & _ & Hpos). repeat split; lia.
    + destruct (Nat.ltb_spec 0 current).
      * specialize (IH (Nat.max streak current) 0%nat). cbv zeta in IH.
        destruct IH as (Hle & Hrec & Hpos). repeat split; lia.
      * specialize (IH streak current). cbv zeta in IH.
        destruct IH as (Hle & Hrec & Hpos). repeat split; lia.
Qed.

Lemma filter_date_le_1 (wanted : string) (days : list Insights.Day) :
  NoDup (map Insights.date days) ->
  (length (filter (fun day => String.eqb (Insights.date day) wanted) days) <= 1)%nat.
Proof.
  induction days as [| day days IH]; simpl; [lia |].
  intros Hnd. inversion Hnd as [| ? ? Hnotin Hnd']; subst.
  destruct (String.eqb (Insights.date day) wanted) eqn:E; [| auto].
  apply String.eqb_eq in E. simpl.
  assert (Hnone : filter (fun d => String.eqb (Insights.date d) wanted) days = []).
  { destruct (filter _ days) as [| d rest] eqn:Hf; [reflexivity |].
    assert (Hin : In d (filter (fun d => String.eqb (Insights.date d) wanted) days))
      by (rewrite Hf; now left).
    apply filter_In in Hin. destruct Hin as (Hin & Hd). apply String.eqb_eq in Hd.
    exfalso. apply Hnotin. rewrite E, <- Hd. now apply in_map. }
  rewrite Hnone. simpl. lia.
Qed.

Lemma filter_recent_le_2 (today yesterday : string) (days : list Insights.Day) :
  NoDup (map Insights.date days) ->
  (length (filter (Insights.isRecentDay today yesterday) days) <= 2)%nat.
Proof.
  intros Hnd.
  pose proof (filter_date_le_1 today days Hnd) as Ht.
  pose proof (filter_date_le_1 yesterday days Hnd) as Hy.
  assert (Hsum : (length (filter (Insights.isRecentDay today yesterday) days)
                  <= length (filter (fun day => String.eqb (Insights.date day) today) days)
                     + length (filter (fun day => String.eqb (Insights.date day) yesterday)
                                 days))%nat).
  { clear. induction days as [| day days IH]; simpl; [lia |].
    unfold Insights.isRecentDay at 1.
    destruct (String.eqb (Insights.date day) today),
             (String.eqb (Insights.date day) yesterday); simpl; lia. }
  lia.
Qed.

(** The streak that [calculateMLInsights] reports for the days made by
    [processCommitData] is never more than 2, whatever the history of
    commits: it counts days dated today or yesterday, and each date occurs
    once.  It is 0 exactly when no day is dated today or yesterday. *)
Theorem commitStreak_at_most_2 (dayOf : string -> string) (hourOf weekdayOf : string -> Z)
    (notBefore : string -> bool) (sort : list Insights.Day -> list Insights.Day)
    (today yesterday : string) (events : list Insights.Event) :
  (forall days, Permutation (sort days) days) ->
  let commitData := Insights.processCommitData dayOf hourOf weekdayOf notBefore events in
  let streak := Insights.commitStreak sort today yesterday commitData in
  (streak <= 2)%nat
  /\ (streak = 0%nat
      <-> forall day, In day commitData -> Insights.isRecentDay today yesterday day = false).
Proof.
  intros Hsort commitData streak.
  pose proof (processCommitData_NoDup dayOf hourOf weekdayOf notBefore events) as Hnd.
  fold commitData in Hnd.
  assert (Hperm : Permutation (rev (sort commitData)) commitData).
  { eapply Permutation_trans; [apply Permutation_sym, Permutation_rev | apply Hsort]. }
  assert (Hnd' : NoDup (map Insights.date (rev (sort commitData)))).
  { eapply Permutation_NoDup; [| exact Hnd].
    apply Permutation_map, Permutation_sym, Hperm. }
  destruct (streak_fold_bounds today yesterday (rev (sort commitData)) 0 0)
    as (Hle & Hrec & _). cbv zeta in Hle, Hrec.
  pose proof (filter_recent_le_2 today yesterday _ Hnd') as H2.
  assert (Hstreak : streak
                    = Nat.max
                        (fst (fold_left (Insights.streakStep today yesterday)
                                (rev (sort commitData)) (0%nat, 0%nat)))
                        (snd (fold_left (Insights.streakStep today yesterday)
                                (rev (sort commitData)) (0%nat, 0%nat)))).
  { subst streak. unfold Insights.commitStreak.
    now destruct (fold_left _ (rev (sort commitData)) (0%nat, 0%nat)). }
  rewrite Hstreak. split; [simpl in Hle; lia |].
  split.
  - intros Hzero day Hin.
    destruct (Insights.isRecentDay today yesterday day) eqn:E; [| reflexivity].
    assert (Hin' : In day (filter (Insights.isRecentDay today yesterday)
                             (rev (sort commitData)))).
    { apply filter_In. split; [| assumption].
      eapply Permutation_in; [apply Permutation_sym, Hperm | exact Hin]. }
    destruct (filter _ (rev (sort commitData))); [contradiction |].
    simpl in Hrec. lia.
  - intros Hnone.
    assert (Hempty : filter (Insights.isRecentDay today yesterday) (rev (sort commitData))
                     = []).
    { destruct (filter _ (rev (sort commitData))) as [| day rest] eqn:Hf; [reflexivity |].
      assert (Hin : In day (filter (Insights.isRecentDay today yesterday)
                              (rev (sort commitData)))) by (rewrite Hf; now left).
      apply filter_In in Hin. destruct Hin as (Hin & Hday).
      rewrite (Hnone day) in Hday; [discriminate |].
      eapply Permutation_in; [exact Hperm | exact Hin]. }
    rewrite Hempty in Hle. simpl in Hle. lia.
Qed.

Lemma commitStreak_at_most_2_witness :
  let commitData :=
    Insights.processCommitData isoDay (fun _ => 12) (fun _ => 1) (fun _ => true)
      threePushes in
  let streak := Insights.commitStreak (fun days => days) "2024-01-15" "2024-01-14"
                  commitData in
  (streak <= 2)%nat
  /\ (streak = 0%nat
      <-> forall day, In day commitData
                      -> Insights.isRecentDay "2024-01-15" "2024-01-14" day = false).
Proof.
  apply (commitStreak_at_most_2 isoDay (fun _ => 12) (fun _ => 1) (fun _ => true)
           (fun days => days) "2024-01-15" "2024-01-14" threePushes).
  intros days. apply Permutation_refl.
Defined.
